(** * Google Chat node: the per-item execution pipeline of [GoogleChat.node.ts]

    A shallow embedding of [GoogleChat.execute] (src/nodes/GoogleChat/
    GoogleChat.node.ts) and the properties of its request building, of the
    unsigned page-size coercion, of the output aggregation and of the
    per-item failure handling.

    JavaScript values are an inductive type, JavaScript objects used as
    string-keyed bags ([IDataObject], the query carrier [qs], request bodies)
    are finite maps, Numbers are IEEE-754 binary64 values, and the effects of
    [execute] (parameter reads, transport calls, the mutable locals shared by
    all iterations, thrown errors) are threaded through a state-and-error
    monad that also records every interaction with the host. *)

From Stdlib Require Import ZArith String List Floats.SpecFloat.
From stdpp Require Import gmap strings list pretty.

Set Warnings "-register-all".

(** ** JavaScript values *)

Module Js.

(** A Number is a binary64 value: signed zeros, infinities, NaN, or
    [(-1)^s * m * 2^e]. *)
Definition number : Type := spec_float.

Definition prec : Z := 53%Z.
Definition emax : Z := 1024%Z.

(** The Number denoted by an integer literal (round to nearest even). *)
Definition number_of_Z (z : Z) : number := binary_normalize prec emax z 0%Z false.

Inductive value : Type :=
| JUndefined
| JNull
| JBool (b : bool)
| JNumber (x : number)
| JString (s : string)
| JArray (elements : list value)
| JObject (properties : gmap string value).

(** [IDataObject]: a plain object seen as a bag of named values. *)
Abbreviation IDataObject := (gmap string value).

(** ECMAScript [ToNumber] on [number | undefined]: [undefined] is NaN. *)
Definition ToNumber (v : option number) : number :=
  match v with
  | Some x => x
  | None => S754_nan
  end.

(** [sign(x) * floor(abs(x))] for a finite x; 0 for zeros, NaN, infinities. *)
Definition truncate (x : number) : Z :=
  match x with
  | S754_finite s m e =>
      let a := (if 0 <=? e then Z.pos m * 2 ^ e else Z.pos m / 2 ^ (- e))%Z in
      if s then (- a)%Z else a
  | _ => 0%Z
  end.

(** ECMAScript [ToUint32]: truncate, then reduce modulo 2^32. *)
Definition ToUint32 (x : number) : Z := (truncate x mod 2 ^ 32)%Z.

(** [v >>> count]: the left operand through [ToUint32], shifted right by
    the low five bits of [count], zero filled. *)
Definition unsigned_right_shift (v : option number) (count : Z) : Z :=
  Z.shiftr (ToUint32 (ToNumber v)) (Z.land count 31%Z).

(** A property that may be absent reads as [undefined]. *)
Definition prop {A} (inj : A -> value) (p : option A) : value :=
  match p with
  | Some a => inj a
  | None => JUndefined
  end.

(** [s.slice(0, -1)]: everything but the last character. The source
    applies it to a string that ends in a comma, one byte and one code
    unit alike. *)
Definition slice_0_minus1 (s : string) : string :=
  substring 0 (String.length s - 1) s.

(** [a.includes(x)] on an array of strings. *)
Definition includes (a : list string) (x : string) : bool :=
  existsb (String.eqb x) a.

(** A string is held as the bytes of its UTF-8 form, a lone surrogate as
    the three bytes of its code; JavaScript indexes a string by UTF-16
    code units. *)
Definition is_continuation (c : Ascii.ascii) : bool :=
  N.eqb (N.land (Ascii.N_of_ascii c) 192) 128.

(** The three bytes of a code unit from 0x800 up. *)
Definition code_unit (u : N) : string :=
  String (Ascii.ascii_of_N (N.lor 224 (N.shiftr u 12)))
    (String (Ascii.ascii_of_N (N.lor 128 (N.land (N.shiftr u 6) 63)))
       (String (Ascii.ascii_of_N (N.lor 128 (N.land u 63))) EmptyString)).

(** The two code units of a code point above 0xFFFF, given in four bytes. *)
Definition surrogate_pair (b0 b1 b2 b3 : Ascii.ascii) : list string :=
  let bits (c : Ascii.ascii) (mask : N) := N.land (Ascii.N_of_ascii c) mask in
  let code_point :=
    N.lor (N.shiftl (bits b0 7%N) 18)
      (N.lor (N.shiftl (bits b1 63%N) 12)
         (N.lor (N.shiftl (bits b2 63%N) 6) (bits b3 63%N))) in
  let offset := (code_point - 65536)%N in
  [ code_unit (55296 + N.shiftr offset 10)%N;
    code_unit (56320 + N.land offset 1023)%N ].

(** The characters of a string as [s[0]], [s[1]], ... give them: one
    string per UTF-16 code unit. A code point of one, two or three bytes
    is one unit; one of four bytes is a surrogate pair. A byte that opens
    no well-formed sequence, which no JavaScript string holds, stands for
    itself. *)
Fixpoint chars (s : string) : list string :=
  match s with
  | EmptyString => []
  | String b0 s1 =>
      let lead := Ascii.N_of_ascii b0 in
      let alone := String b0 EmptyString :: chars s1 in
      if N.ltb lead 128 then alone
      else
        match s1 with
        | String b1 s2 =>
            if negb (is_continuation b1) then alone
            else if N.leb 192 lead && N.ltb lead 224 then
              String b0 (String b1 EmptyString) :: chars s2
            else
              match s2 with
              | String b2 s3 =>
                  if negb (is_continuation b2) then alone
                  else if N.leb 224 lead && N.ltb lead 240 then
                    String b0 (String b1 (String b2 EmptyString)) :: chars s3
                  else
                    match s3 with
                    | String b3 s4 =>
                        if is_continuation b3 && N.leb 240 lead && N.ltb lead 248
                        then surrogate_pair b0 b1 b2 b3 ++ chars s4
                        else alone
                    | EmptyString => alone
                    end
              | EmptyString => alone
              end
        | EmptyString => alone
        end
  end.

(** Own enumerable properties, as [Object.assign] copies them: those of an
    object, the index properties of an array or of a string, none for the
    other primitives. *)
Definition own_properties (v : value) : IDataObject :=
  match v with
  | JObject o => o
  | JArray l => list_to_map (imap (fun i x => (pretty i, x)) l)
  | JString s => list_to_map (imap (fun i c => (pretty i, JString c)) (chars s))
  | _ => ∅
  end.

(** [Object.assign(target, source)]: the source's properties overwrite. *)
Definition Object_assign (target : IDataObject) (source : value) : IDataObject :=
  own_properties source ∪ target.

End Js.

Import Js.

(** ** The host and the transport, as [execute] sees them *)

Module GoogleChat.

Inductive Method : Type := GET | POST | DELETE.

(** The arguments of one transport call. The body and the query carrier
    are optional arguments of [googleApiRequest]; the query carrier is
    recorded with the properties it has at the moment of the call. *)
Record Request : Type := {
  method : Method;
  endpoint : string;
  body : option IDataObject;
  query : option IDataObject
}.

(** What [execute] asks of its surroundings, in the order it asks. *)
Inductive Event : Type :=
| GetNodeParameter (name : string) (itemIndex : nat)
| GoogleApiRequest (rq : Request)
| GoogleApiRequestAllItems (propertyName : string) (rq : Request)
| ContinueOnFail.

Definition is_transport_call (e : Event) : bool :=
  match e with
  | GoogleApiRequest _ | GoogleApiRequestAllItems _ _ => true
  | _ => false
  end.

Definition is_parameter_read (name : string) (e : Event) : bool :=
  match e with
  | GetNodeParameter n _ => String.eqb n name
  | _ => false
  end.

(** Thrown values: the node's own [NodeOperationError] (invalid input),
    an error raised by the transport, and the [SyntaxError] of
    [JSON.parse]. Each carries its [message]. *)
Inductive Error : Type :=
| NodeOperationError (msg : string)
| TransportError (msg : string)
| SyntaxError (msg : string).

Definition message (e : Error) : string :=
  match e with
  | NodeOperationError m | TransportError m | SyntaxError m => m
  end.

(** [IMessageUi] of ./MessageInterface: the structured message input. *)
Record IMessageUi : Type := {
  text : option string;
  cards : option value
}.

(** The [additionalFields] collection of the list operations. *)
Record AdditionalFields : Type := {
  pageSize : option number;
  pageToken : option string
}.

(** [IExecuteFunctions], the [this] of [execute]. [getNodeParameter] is
    read at the type its call site casts it to; the three flags
    ([returnAll], [jsonParameterMessage], [jsonParameterUpdateOptions]) are
    booleans whatever the cast says, and are tested for truthiness. The
    transport functions of ./GenericFunctions answer from the interaction
    so far and the request: a value, or the message of the error raised;
    they are taken not to write to the query carrier they are handed.
    [JSON_parse] is the runtime's [JSON.parse]: a value, or the message of
    its [SyntaxError]. *)
Record IExecuteFunctions : Type := {
  getInputData : list value;
  getNodeParameter_string : string -> nat -> string;
  getNodeParameter_boolean : string -> nat -> bool;
  getNodeParameter_strings : string -> nat -> list string;
  getNodeParameter_messageUi : string -> nat -> IMessageUi;
  getNodeParameter_fields : string -> nat -> AdditionalFields;
  continueOnFail : bool;
  googleApiRequest : list Event -> Request -> string + value;
  googleApiRequestAllItems : list Event -> string -> Request -> string + value;
  JSON_parse : string -> string + value
}.

(** [INodeExecutionData]: one output entry. *)
Record INodeExecutionData : Type := { json : value }.

(** [helpers.returnJsonArray] of n8n-core on an array: every element
    wrapped as [{json: element}]. *)
Definition returnJsonArray (l : list value) : list INodeExecutionData :=
  map Build_INodeExecutionData l.

(** ** The mutable locals of [execute] and its effects *)

(** [qs], [responseData] and [returnData] are declared before the loop and
    shared by all iterations; [trace] is the interaction so far. *)
Record Locals : Type := {
  qs : IDataObject;
  responseData : value;
  returnData : list value;
  trace : list Event
}.

Definition set_qs (f : IDataObject -> IDataObject) (s : Locals) : Locals :=
  {| qs := f (qs s); responseData := responseData s;
     returnData := returnData s; trace := trace s |}.

Definition set_responseData (v : value) (s : Locals) : Locals :=
  {| qs := qs s; responseData := v;
     returnData := returnData s; trace := trace s |}.

Definition set_returnData (f : list value -> list value) (s : Locals) : Locals :=
  {| qs := qs s; responseData := responseData s;
     returnData := f (returnData s); trace := trace s |}.

Definition log (e : list Event) (s : Locals) : Locals :=
  {| qs := qs s; responseData := responseData s;
     returnData := returnData s; trace := trace s ++ e |}.

(** Computations that read and write the locals and may throw. The locals
    survive a throw: the [catch] block sees what the [try] block wrote. *)
Definition M (A : Type) : Type := Locals -> (Error + A) * Locals.

Definition ret {A} (a : A) : M A := fun s => (inr a, s).

Definition bind {A B} (c : M A) (k : A -> M B) : M B :=
  fun s =>
    match c s with
    | (inr a, s') => k a s'
    | (inl e, s') => (inl e, s')
    end.

Definition throw {A} (e : Error) : M A := fun s => (inl e, s).

Definition try_catch {A} (c : M A) (handler : Error -> M A) : M A :=
  fun s =>
    match c s with
    | (inr a, s') => (inr a, s')
    | (inl e, s') => handler e s'
    end.

Definition modify (f : Locals -> Locals) : M unit := fun s => (inr tt, f s).

Definition gets {A} (f : Locals -> A) : M A := fun s => (inr (f s), s).

Declare Scope node_scope.
Delimit Scope node_scope with node.
Notation "x <- c ;; k" := (bind c (fun x => k))
  (at level 100, c at next level, right associativity) : node_scope.
Notation "c ;; k" := (bind c (fun _ => k))
  (at level 100, right associativity) : node_scope.
Open Scope node_scope.

(** ** [validateJSON] and the update mask *)

(** Modelled from the spec: [validateJSON] of ./GenericFunctions is not
    among the sources. Section 4.1: a strict parse; on success the parsed
    value, on any failure a sentinel distinct from every JSON value, never
    a throw. The call sites compare the result with [undefined], which is
    that sentinel. *)
Definition validateJSON (parse : string -> string + value) (s : string) : value :=
  match parse s with
  | inr v => v
  | inl _ => JUndefined
  end.

Definition is_undefined (v : value) : bool :=
  match v with
  | JUndefined => true
  | _ => false
  end.

(** Lines 331-335: append each option and a comma, then drop the last
    character. *)
Definition render_updateMask (updateMaskOptions : list string) : string :=
  slice_0_minus1
    (fold_left (fun updateMask option => updateMask +:+ (option +:+ ","))
       updateMaskOptions "").

(** Lines 400-404: an array is pushed element by element, any other
    defined value as one element, [undefined] not at all. *)
Definition push_response (responseData : value) (returnData : list value)
  : list value :=
  match responseData with
  | JArray elements => returnData ++ elements
  | JUndefined => returnData
  | single => returnData ++ [single]
  end.

(** ** [execute] *)

Section Execute.

Variable this : IExecuteFunctions.

(** [this.getNodeParameter(name, i)], at each of the types it is cast to. *)
Definition getNodeParameter {A} (read : IExecuteFunctions -> string -> nat -> A)
    (name : string) (i : nat) : M A :=
  fun s => (inr (read this name i), log [GetNodeParameter name i] s).

(** [await googleApiRequest.call(this, method, endpoint, body, qs)]: the
    call is recorded, then it returns or throws. *)
Definition call_googleApiRequest (m : Method) (path : string)
    (b : option IDataObject) (with_qs : bool) : M value :=
  fun s =>
    let rq := {| method := m; endpoint := path; body := b;
                 query := if with_qs then Some (qs s) else None |} in
    let s' := log [GoogleApiRequest rq] s in
    match googleApiRequest this (trace s) rq with
    | inr v => (inr v, s')
    | inl msg => (inl (TransportError msg), s')
    end.

(** [await googleApiRequestAllItems.call(this, propertyName, method,
    endpoint, undefined, qs)]. *)
Definition call_googleApiRequestAllItems (propertyName : string) (m : Method)
    (path : string) : M value :=
  fun s =>
    let rq := {| method := m; endpoint := path; body := None;
                 query := Some (qs s) |} in
    let s' := log [GoogleApiRequestAllItems propertyName rq] s in
    match googleApiRequestAllItems this (trace s) propertyName rq with
    | inr v => (inr v, s')
    | inl msg => (inl (TransportError msg), s')
    end.

(** [JSON.parse(jsonStr)]. *)
Definition call_JSON_parse (jsonStr : string) : M value :=
  match JSON_parse this jsonStr with
  | inr v => ret v
  | inl msg => throw (SyntaxError msg)
  end.

(** Lines 164-176 and 219-232: one page, with the coerced [pageSize] and
    the [pageToken] as given. *)
Definition single_page (path : string) (i : nat) : M unit :=
  additionalFields <- getNodeParameter getNodeParameter_fields "additionalFields" i ;;
  modify (set_qs <["pageSize" :=
    JNumber (number_of_Z (unsigned_right_shift (pageSize additionalFields) 0))]>) ;;
  modify (set_qs <["pageToken" := prop JString (pageToken additionalFields)]>) ;;
  r <- call_googleApiRequest GET path None true ;;
  modify (set_responseData r).

(** Lines 248-271: the message of [message: create]. *)
Definition create_message (i : nat) : M value :=
  jsonParameterMessage <-
    getNodeParameter getNodeParameter_boolean "jsonParameterMessage" i ;;
  if jsonParameterMessage : bool then
    jsonStr <- getNodeParameter getNodeParameter_string "messageJson" i ;;
    if negb (is_undefined (validateJSON (JSON_parse this) jsonStr)) then
      call_JSON_parse jsonStr
    else
      throw (NodeOperationError "Message (JSON) must be a valid json")
  else
    messageUi <- getNodeParameter getNodeParameter_messageUi "messageUi" i ;;
    match text messageUi with
    | Some t =>
        if negb (String.eqb t "") then
          ret (JObject (<["text" := JString t]> ∅))
        else
          throw (NodeOperationError "Message Text must be provided.")
    | None => throw (NodeOperationError "Message Text must be provided.")
    end.

(** Lines 341-366: the update options of [message: update]. *)
Definition update_options (updateMaskOptions : list string) (i : nat) : M value :=
  jsonParameterUpdateOptions <-
    getNodeParameter getNodeParameter_boolean "jsonParameterUpdateOptions" i ;;
  if jsonParameterUpdateOptions : bool then
    jsonStr <- getNodeParameter getNodeParameter_string "updateOptionsJson" i ;;
    if negb (is_undefined (validateJSON (JSON_parse this) jsonStr)) then
      call_JSON_parse jsonStr
    else
      throw (NodeOperationError "Update Options (JSON) must be a valid json")
  else
    if includes updateMaskOptions "text" then
      t <- getNodeParameter getNodeParameter_string "textUi" i ;;
      if negb (String.eqb t "") then
        ret (JObject (<["text" := JString t]> ∅))
      else
        throw (NodeOperationError "Text input must be provided.")
    else
      ret (JObject ∅).

(** Lines 111-399: the dispatch on [(resource, operation)] for item [i]. *)
Definition dispatch (resource operation : string) (i : nat) : M unit :=
  if String.eqb resource "media" then
    if String.eqb operation "download" then
      resourceName <- getNodeParameter getNodeParameter_string "resourceName" i ;;
      r <- call_googleApiRequest GET
             ("/v1/media/" +:+ resourceName +:+ "?alt=media") None false ;;
      modify (set_responseData r)
    else ret tt
  else if String.eqb resource "space" then
    if String.eqb operation "get" then
      spaceName <- getNodeParameter getNodeParameter_string "spaceName" i ;;
      r <- call_googleApiRequest GET ("/v1/" +:+ spaceName) None false ;;
      modify (set_responseData r)
    else if String.eqb operation "getAll" then
      returnAll <- getNodeParameter getNodeParameter_boolean "returnAll" 0 ;;
      if returnAll : bool then
        r <- call_googleApiRequestAllItems "spaces" GET "/v1/spaces" ;;
        modify (set_responseData r)
      else
        single_page "/v1/spaces" i
    else ret tt
  else if String.eqb resource "member" then
    if String.eqb operation "get" then
      spaceName <- getNodeParameter getNodeParameter_string "spaceName" i ;;
      memberName <- getNodeParameter getNodeParameter_string "memberName" i ;;
      r <- call_googleApiRequest GET
             ("/v1/spaces/" +:+ spaceName +:+ "/members/" +:+ memberName)
             None false ;;
      modify (set_responseData r)
    else if String.eqb operation "getAll" then
      spaceName <- getNodeParameter getNodeParameter_string "spaceName" i ;;
      returnAll <- getNodeParameter getNodeParameter_boolean "returnAll" 0 ;;
      if returnAll : bool then
        r <- call_googleApiRequestAllItems "memberships" GET
               ("/v1/spaces/" +:+ spaceName +:+ "/members") ;;
        modify (set_responseData r)
      else
        single_page ("/v1/spaces/" +:+ spaceName +:+ "/members") i
    else ret tt
  else if String.eqb resource "message" then
    if String.eqb operation "create" then
      spaceName <- getNodeParameter getNodeParameter_string "spaceName" i ;;
      threadKey <- getNodeParameter getNodeParameter_string "threadKey" i ;;
      modify (set_qs <["threadKey" := JString threadKey]>) ;;
      message <- create_message i ;;
      r <- call_googleApiRequest POST ("/v1/spaces/" +:+ spaceName)
             (Some (Object_assign ∅ message)) true ;;
      modify (set_responseData r)
    else if String.eqb operation "delete" then
      spaceName <- getNodeParameter getNodeParameter_string "spaceName" i ;;
      messageName <- getNodeParameter getNodeParameter_string "messageName" i ;;
      r <- call_googleApiRequest DELETE
             ("/v1/spaces/" +:+ spaceName +:+ "/messages/" +:+ messageName)
             None false ;;
      modify (set_responseData r)
    else if String.eqb operation "get" then
      spaceName <- getNodeParameter getNodeParameter_string "spaceName" i ;;
      messageName <- getNodeParameter getNodeParameter_string "messageName" i ;;
      r <- call_googleApiRequest GET
             ("/v1/spaces/" +:+ spaceName +:+ "/messages/" +:+ messageName)
             None false ;;
      modify (set_responseData r)
    else if String.eqb operation "update" then
      spaceName <- getNodeParameter getNodeParameter_string "spaceName" i ;;
      messageName <- getNodeParameter getNodeParameter_string "messageName" i ;;
      updateMaskOptions <-
        getNodeParameter getNodeParameter_strings "updateMask" i ;;
      (if negb (Nat.eqb (length updateMaskOptions) 0) then
         modify (set_qs <["updateMask" :=
           JString (render_updateMask updateMaskOptions)]>)
       else
         throw (NodeOperationError "Update Mask must not be empty.")) ;;
      updateOptions <- update_options updateMaskOptions i ;;
      r <- call_googleApiRequest POST
             ("/v1/spaces/" +:+ spaceName +:+ "/messages/" +:+ messageName)
             (Some (Object_assign ∅ updateOptions)) true ;;
      modify (set_responseData r)
    else ret tt
  else if String.eqb resource "attachment" then
    if String.eqb operation "get" then
      spaceName <- getNodeParameter getNodeParameter_string "spaceName" i ;;
      messageName <- getNodeParameter getNodeParameter_string "messageName" i ;;
      attachmentName <-
        getNodeParameter getNodeParameter_string "attachmentName" i ;;
      r <- call_googleApiRequest POST
             ("/v1/spaces/" +:+ spaceName +:+ "/messages/" +:+ messageName
                +:+ "/attachments/" +:+ attachmentName)
             None false ;;
      modify (set_responseData r)
    else ret tt
  else ret tt.

(** Lines 110-404: the [try] block of item [i]. *)
Definition try_block (resource operation : string) (i : nat) : M unit :=
  dispatch resource operation i ;;
  r <- gets responseData ;;
  modify (set_returnData (push_response r)).

(** Lines 405-412: the [catch] block. *)
Definition catch_block (error : Error) : M unit :=
  modify (log [ContinueOnFail]) ;;
  if continueOnFail this then
    modify (set_returnData (fun returnData =>
      returnData ++ [JObject (<["error" := JString (message error)]> ∅)]))
  else
    throw error.

Definition iteration (resource operation : string) (i : nat) : M unit :=
  try_catch (try_block resource operation i) catch_block.

(** [for (let i = 0; i < length; i++)], from [i] with [remaining] items to go. *)
Fixpoint for_loop (resource operation : string) (remaining i : nat) : M unit :=
  match remaining with
  | O => ret tt
  | S n => iteration resource operation i ;; for_loop resource operation n (S i)
  end.

Definition initial : Locals :=
  {| qs := ∅; responseData := JUndefined; returnData := []; trace := [] |}.

(** Lines 101-415. *)
Definition execute_body : M (list (list INodeExecutionData)) :=
  resource <- getNodeParameter getNodeParameter_string "resource" 0 ;;
  operation <- getNodeParameter getNodeParameter_string "operation" 0 ;;
  for_loop resource operation (length (getInputData this)) 0 ;;
  returnData <- gets returnData ;;
  ret [returnJsonArray returnData].

Definition execute : (Error + list (list INodeExecutionData)) * Locals :=
  execute_body initial.

End Execute.

(** ** Vocabulary of the properties *)

(** The routing table of the request builder: the pairs [execute] serves. *)
Definition dispatch_table : list (string * string) :=
  [ ("media", "download");
    ("space", "get"); ("space", "getAll");
    ("member", "get"); ("member", "getAll");
    ("message", "create"); ("message", "delete"); ("message", "get");
    ("message", "update");
    ("attachment", "get") ].

(** The transport calls of an interaction, in order. *)
Definition transport_calls (t : list Event) : list Event :=
  List.filter is_transport_call t.

(** A defined response that is not an array. *)
Definition is_single (v : value) : bool :=
  match v with
  | JUndefined | JArray _ => false
  | _ => true
  end.

(** The record [{error: message}]. *)
Definition error_record (msg : string) : value :=
  JObject (<["error" := JString msg]> ∅).

(** The locals once [resource] and [operation] have been read. *)
Definition started : Locals :=
  log [GetNodeParameter "resource" 0; GetNodeParameter "operation" 0] initial.

(** The pair resolved once per run, at item index 0. *)
Definition selected_resource (this : IExecuteFunctions) : string :=
  getNodeParameter_string this "resource" 0.

Definition selected_operation (this : IExecuteFunctions) : string :=
  getNodeParameter_string this "operation" 0.

(** The locals with which the iteration of item [k] begins; [None] when
    an earlier iteration has ended the run. *)
Fixpoint before_item (this : IExecuteFunctions) (k : nat) : option Locals :=
  match k with
  | O => Some started
  | S j =>
      match before_item this j with
      | Some s =>
          match iteration this (selected_resource this)
                  (selected_operation this) j s with
          | (inr _, s') => Some s'
          | (inl _, _) => None
          end
      | None => None
      end
  end.

(** How the [try] block of item [k] ends, and with which locals: the
    response it stored, or the error it threw. *)
Definition item_try (this : IExecuteFunctions) (k : nat)
  : option ((Error + unit) * Locals) :=
  match before_item this k with
  | Some s =>
      Some (try_block this (selected_resource this)
              (selected_operation this) k s)
  | None => None
  end.

Definition item_outcome (this : IExecuteFunctions) (k : nat)
  : option (Error + value) :=
  match item_try this k with
  | Some (inr _, s') => Some (inr (responseData s'))
  | Some (inl e, _) => Some (inl e)
  | None => None
  end.

(** The interaction [t] ends with a transport call that was answered with
    [a]: a response, or the message of the error raised. *)
Definition answered (this : IExecuteFunctions) (t : list Event)
    (a : string + value) : Prop :=
  exists before rq,
    (t = before ++ [GoogleApiRequest rq]
     /\ googleApiRequest this before rq = a)
    \/ (exists propertyName,
          t = before ++ [GoogleApiRequestAllItems propertyName rq]
          /\ googleApiRequestAllItems this before propertyName rq = a).

(** Whether a parameter of that name is read in an interaction. *)
Definition reads (name : string) (events : list Event) : bool :=
  existsb (is_parameter_read name) events.

(** The comma-joined rendering of a list of field names. *)
Definition comma_joined (fields : list string) : string :=
  String.concat "," fields.

(** ** Sample hosts *)

(** The transport of the sample hosts answers its k-th call with the k-th
    element of a script, and with [undefined] past its end. *)
Definition scripted (answers : list (string + value)) (t : list Event)
  : string + value :=
  nth (length (transport_calls t)) answers (inr JUndefined).

(** A host with [n] items: [resource] and [operation] as given, every
    other string parameter holding its own name, every flag equal to
    [flag], and no parsable JSON. *)
Definition sample_host (n : nat) (resource operation : string)
    (flag continue : bool) (mask : list string) (ui : IMessageUi)
    (fields : AdditionalFields) (answers : list (string + value))
  : IExecuteFunctions :=
  {| getInputData := replicate n (JObject ∅);
     getNodeParameter_string := fun name _ =>
       if String.eqb name "resource" then resource
       else if String.eqb name "operation" then operation
       else name;
     getNodeParameter_boolean := fun _ _ => flag;
     getNodeParameter_strings := fun _ _ => mask;
     getNodeParameter_messageUi := fun _ _ => ui;
     getNodeParameter_fields := fun _ _ => fields;
     continueOnFail := continue;
     googleApiRequest := fun t _ => scripted answers t;
     googleApiRequestAllItems := fun t _ _ => scripted answers t;
     JSON_parse := fun _ => inl "Unexpected token" |}.

Definition no_ui : IMessageUi := {| text := None; cards := None |}.
Definition no_fields : AdditionalFields := {| pageSize := None; pageToken := None |}.

Definition named (name : string) : value :=
  JObject (<["name" := JString name]> ∅).

(** Three items listed in full; the second call fails. *)
Definition host_lists (continue : bool) : IExecuteFunctions :=
  sample_host 3 "space" "getAll" true continue [] no_ui no_fields
    [ inr (JArray [named "spaces/A"; named "spaces/B"]);
      inl "The service is currently unavailable.";
      inr (JArray [named "spaces/C"]) ].

(** Three spaces fetched one by one; the second call fails. *)
Definition host_gets (continue : bool) : IExecuteFunctions :=
  sample_host 3 "space" "get" false continue [] no_ui no_fields
    [ inr (named "spaces/A");
      inl "The service is currently unavailable.";
      inr (named "spaces/C") ].

(** One message item, with the structured input [ui]. *)
Definition host_create (ui : IMessageUi) : IExecuteFunctions :=
  sample_host 1 "message" "create" false false [] ui no_fields [inr (named "spaces/A/messages/1")].

(** One message item to update, with the given mask. *)
Definition host_update (mask : list string) : IExecuteFunctions :=
  sample_host 1 "message" "update" false false mask no_ui no_fields
    [inr (named "spaces/A/messages/1")].


(** One page of spaces, with the given additional fields. *)
Definition host_page (fields : AdditionalFields) : IExecuteFunctions :=
  sample_host 1 "space" "getAll" false false [] no_ui fields [inr (JObject ∅)].

(** What item [k] adds to the output: the elements its response
    contributes, or the error record when its failure is recorded. *)
Definition item_contribution (this : IExecuteFunctions) (k : nat) : list value :=
  match item_outcome this k with
  | Some (inr r) => push_response r []
  | Some (inl e) => [error_record (message e)]
  | None => []
  end.

(** A parameter read that item [i] may make: at its own index, or the read
    of [returnAll] at index 0. *)
Definition read_of_item (i : nat) (e : Event) : bool :=
  match e with
  | GetNodeParameter name j =>
      Nat.eqb j i || (String.eqb name "returnAll" && Nat.eqb j 0)
  | _ => true
  end.

(** A parameter read at index 0 or at the index of one of [n] items. *)
Definition known_read (n : nat) (e : Event) : Prop :=
  match e with
  | GetNodeParameter _ j => j = 0%nat \/ (j < n)%nat
  | _ => True
  end.

(** An event of a fetch-all run: never a single request, and every paged
    call a GET without body and with an empty query. *)
Definition fetch_all_call (e : Event) : Prop :=
  match e with
  | GoogleApiRequest _ => False
  | GoogleApiRequestAllItems _ rq =>
      method rq = GET /\ body rq = None /\ query rq = Some ∅
  | _ => True
  end.

(** An event of a [message: create] run: every request a POST whose query
    is the thread key of an item and nothing else. *)
Definition create_call (this : IExecuteFunctions) (e : Event) : Prop :=
  match e with
  | GoogleApiRequest rq =>
      method rq = POST
      /\ exists j, query rq
           = Some {[ "threadKey" :=
                       JString (getNodeParameter_string this "threadKey" j) ]}
  | GoogleApiRequestAllItems _ _ => False
  | _ => True
  end.

(** The operations that read string parameters and issue one request with
    neither body nor query: the parameters read, the method, the path. *)
Definition plain_requests (this : IExecuteFunctions) (i : nat)
  : list (string * string * (list string * Method * string)) :=
  let p name := getNodeParameter_string this name i in
  [ ("media", "download",
       (["resourceName"], GET,
        "/v1/media/" +:+ p "resourceName" +:+ "?alt=media"));
    ("space", "get", (["spaceName"], GET, "/v1/" +:+ p "spaceName"));
    ("member", "get",
       (["spaceName"; "memberName"], GET,
        "/v1/spaces/" +:+ p "spaceName" +:+ "/members/" +:+ p "memberName"));
    ("message", "delete",
       (["spaceName"; "messageName"], DELETE,
        "/v1/spaces/" +:+ p "spaceName" +:+ "/messages/" +:+ p "messageName"));
    ("message", "get",
       (["spaceName"; "messageName"], GET,
        "/v1/spaces/" +:+ p "spaceName" +:+ "/messages/" +:+ p "messageName"));
    ("attachment", "get",
       (["spaceName"; "messageName"; "attachmentName"], POST,
        "/v1/spaces/" +:+ p "spaceName" +:+ "/messages/" +:+ p "messageName"
          +:+ "/attachments/" +:+ p "attachmentName")) ].

(** One space fetched while the service is down. *)
Definition host_down : IExecuteFunctions :=
  sample_host 1 "space" "get" false true [] no_ui no_fields
    [inl "The service is currently unavailable."].

(** Two spaces fetched one by one, both calls answered. *)
Definition host_two_gets : IExecuteFunctions :=
  sample_host 2 "space" "get" false false [] no_ui no_fields
    [inr (named "spaces/A"); inr (named "spaces/B")].

(** No item at all. *)
Definition host_idle : IExecuteFunctions :=
  sample_host 0 "space" "get" false false [] no_ui no_fields [].

(** A computation that leaves [returnData] alone, whether it returns or
    throws. *)
Definition keeps_returnData {A} (c : M A) : Prop :=
  forall s, returnData (snd (c s)) = returnData s.

(** ** Table misses *)

Section TableMiss.

Variable this : IExecuteFunctions.

Lemma dispatch_table_miss (resource operation : string) (i : nat) :
  ~ In (resource, operation) dispatch_table ->
  dispatch this resource operation i = ret tt.
Proof.
  intros Hmiss. unfold dispatch.
  repeat match goal with
         | |- context [String.eqb ?a ?b] =>
             destruct (String.eqb_spec a b); subst
         end;
    try reflexivity; try discriminate;
    exfalso; apply Hmiss; simpl; tauto.
Qed.

Lemma set_returnData_undefined (s : Locals) :
  responseData s = JUndefined ->
  set_returnData (push_response (responseData s)) s = s.
Proof. intros H. destruct s; simpl in *. subst. reflexivity. Qed.

Lemma iteration_table_miss (resource operation : string) (i : nat) (s : Locals) :
  ~ In (resource, operation) dispatch_table ->
  responseData s = JUndefined ->
  iteration this resource operation i s = (inr tt, s).
Proof.
  intros Hmiss Hundef.
  unfold iteration, try_catch, try_block.
  rewrite (dispatch_table_miss _ _ _ Hmiss).
  unfold bind, ret, gets, modify.
  rewrite (set_returnData_undefined _ Hundef). reflexivity.
Qed.

Lemma for_loop_table_miss (resource operation : string) (n i : nat) (s : Locals) :
  ~ In (resource, operation) dispatch_table ->
  responseData s = JUndefined ->
  for_loop this resource operation n i s = (inr tt, s).
Proof.
  intros Hmiss. revert i s.
  induction n as [|n IH]; intros i s Hundef; simpl.
  - reflexivity.
  - unfold bind at 1. rewrite (iteration_table_miss _ _ _ _ Hmiss Hundef).
    apply IH, Hundef.
Qed.

End TableMiss.

(** ** What a [try] block does to [returnData] *)

Section Aggregation.

Variable this : IExecuteFunctions.

Lemma keeps_ret {A} (a : A) : keeps_returnData (ret a).
Proof. intros s. reflexivity. Qed.

Lemma keeps_throw {A} (e : Error) : keeps_returnData (@throw A e).
Proof. intros s. reflexivity. Qed.

Lemma keeps_bind {A B} (c : M A) (k : A -> M B) :
  keeps_returnData c -> (forall a, keeps_returnData (k a)) ->
  keeps_returnData (bind c k).
Proof.
  intros Hc Hk s. unfold bind. specialize (Hc s).
  destruct (c s) as [[e|a] s']; simpl in *.
  - exact Hc.
  - rewrite Hk. exact Hc.
Qed.

Lemma keeps_getNodeParameter {A} (read : IExecuteFunctions -> string -> nat -> A)
    (name : string) (i : nat) :
  keeps_returnData (getNodeParameter this read name i).
Proof. intros s. reflexivity. Qed.

Lemma keeps_googleApiRequest m path b with_qs :
  keeps_returnData (call_googleApiRequest this m path b with_qs).
Proof.
  intros s. unfold call_googleApiRequest.
  destruct (googleApiRequest this _ _); reflexivity.
Qed.

Lemma keeps_googleApiRequestAllItems propertyName m path :
  keeps_returnData (call_googleApiRequestAllItems this propertyName m path).
Proof.
  intros s. unfold call_googleApiRequestAllItems.
  destruct (googleApiRequestAllItems this _ _ _); reflexivity.
Qed.

Lemma keeps_JSON_parse jsonStr : keeps_returnData (call_JSON_parse this jsonStr).
Proof.
  intros s. unfold call_JSON_parse.
  destruct (JSON_parse this jsonStr); reflexivity.
Qed.

Lemma keeps_set_qs f : keeps_returnData (modify (set_qs f)).
Proof. intros s. reflexivity. Qed.

Lemma keeps_set_responseData v : keeps_returnData (modify (set_responseData v)).
Proof. intros s. reflexivity. Qed.

Create HintDb keeps discriminated.
#[local] Hint Resolve keeps_ret keeps_throw keeps_getNodeParameter
  keeps_googleApiRequest keeps_googleApiRequestAllItems keeps_JSON_parse
  keeps_set_qs keeps_set_responseData : keeps.

(** Walk a computation: binds are split, conditionals are taken both ways,
    the leaves are closed from the hint base. *)
Ltac keeps_walk :=
  repeat first
    [ progress intros
    | solve [ auto with keeps ]
    | apply keeps_bind
    | match goal with
      | |- keeps_returnData (if ?b then _ else _) => destruct b
      | |- keeps_returnData (match ?x with _ => _ end) => destruct x
      end ].

Lemma keeps_single_page path i : keeps_returnData (single_page this path i).
Proof. unfold single_page. keeps_walk. Qed.

Lemma keeps_create_message i : keeps_returnData (create_message this i).
Proof. unfold create_message. keeps_walk. Qed.

Lemma keeps_update_options mask i : keeps_returnData (update_options this mask i).
Proof. unfold update_options. keeps_walk. Qed.

#[local] Hint Resolve keeps_single_page keeps_create_message
  keeps_update_options : keeps.

Lemma keeps_dispatch resource operation i :
  keeps_returnData (dispatch this resource operation i).
Proof. unfold dispatch. keeps_walk. Qed.

Lemma try_block_returns resource operation i s s1 :
  try_block this resource operation i s = (inr tt, s1) ->
  exists s', dispatch this resource operation i s = (inr tt, s')
             /\ s1 = set_returnData (push_response (responseData s')) s'
             /\ responseData s1 = responseData s'
             /\ returnData s1 = push_response (responseData s1) (returnData s).
Proof.
  unfold try_block, bind, gets, modify.
  pose proof (keeps_dispatch resource operation i s) as Hkeep.
  destruct (dispatch this resource operation i s) as [[e|[]] s'];
    simpl in *; intros [= <-].
  exists s'. simpl. rewrite Hkeep. auto.
Qed.

Lemma try_block_throws resource operation i s e s2 :
  try_block this resource operation i s = (inl e, s2) ->
  dispatch this resource operation i s = (inl e, s2)
  /\ returnData s2 = returnData s.
Proof.
  unfold try_block, bind, gets, modify.
  pose proof (keeps_dispatch resource operation i s) as Hkeep.
  destruct (dispatch this resource operation i s) as [[e'|[]] s'];
    simpl in *; intros [= <- <-]. auto.
Qed.

End Aggregation.

(** C3: what the try block of an item appends to the output, whatever the
    operation: given the response the dispatch left in [responseData], an
    array of n elements adds exactly its n elements in their order, any
    other defined value adds itself as one element, and [undefined] adds
    nothing. *)
Theorem try_block_contribution (this : IExecuteFunctions)
    (resource operation : string) (i : nat) (s s' : Locals) :
  dispatch this resource operation i s = (inr tt, s') ->
  let after := try_block this resource operation i s in
  fst after = inr tt
  /\ (forall elements, responseData s' = JArray elements ->
        returnData (snd after) = returnData s ++ elements
        /\ length (returnData (snd after))
           = (length (returnData s) + length elements)%nat)
  /\ (is_single (responseData s') = true ->
        returnData (snd after) = returnData s ++ [responseData s']
        /\ length (returnData (snd after)) = S (length (returnData s)))
  /\ (responseData s' = JUndefined ->
        returnData (snd after) = returnData s).
Proof.
  intros Hd after.
  assert (Hafter : after = (inr tt, set_returnData (push_response (responseData s')) s')).
  { subst after. unfold try_block, bind, gets, modify. rewrite Hd. reflexivity. }
  pose proof (keeps_dispatch this resource operation i s) as Hkeep.
  rewrite Hd in Hkeep. simpl in Hkeep.
  rewrite Hafter. simpl. rewrite Hkeep.
  split; [reflexivity|]. split; [|split].
  - intros elements ->. simpl. split; [reflexivity|]. apply length_app.
  - intros Hsingle. destruct (responseData s'); try discriminate; simpl;
      (split; [reflexivity|]); rewrite length_app; simpl; lia.
  - intros ->. reflexivity.
Qed.

Lemma try_block_contribution_witness :
  let this := host_lists true in
  dispatch this "space" "getAll" 0 started
    = (inr tt, snd (dispatch this "space" "getAll" 0 started))
  /\ returnData (snd (try_block this "space" "getAll" 0 started))
     = [named "spaces/A"; named "spaces/B"].
Proof.
  intros this. split; [reflexivity|].
  destruct (try_block_contribution this "space" "getAll" 0 started _ eq_refl)
    as (_ & Harray & _).
  exact (proj1 (Harray _ eq_refl)).
Defined.

(** ** The run *)

Section Run.

Variable this : IExecuteFunctions.

#[local] Abbreviation resource := (selected_resource this).
#[local] Abbreviation operation := (selected_operation this).

Lemma execute_unfold :
  execute this =
    match for_loop this resource operation (length (getInputData this)) 0 started with
    | (inr _, s) => (inr [returnJsonArray (returnData s)], s)
    | (inl e, s) => (inl e, s)
    end.
Proof. reflexivity. Qed.

Lemma for_loop_step (n i : nat) (s : Locals) :
  for_loop this resource operation (S n) i s =
    match iteration this resource operation i s with
    | (inr _, s') => for_loop this resource operation n (S i) s'
    | (inl e, s') => (inl e, s')
    end.
Proof. reflexivity. Qed.

Lemma iteration_returns (i : nat) (s s' : Locals) :
  try_block this resource operation i s = (inr tt, s') ->
  iteration this resource operation i s = (inr tt, s').
Proof. intros H. unfold iteration, try_catch. rewrite H. reflexivity. Qed.

Lemma iteration_continues (i : nat) (s s' : Locals) (e : Error) :
  continueOnFail this = true ->
  try_block this resource operation i s = (inl e, s') ->
  iteration this resource operation i s =
    (inr tt, set_returnData (fun returnData => returnData ++ [error_record (message e)])
               (log [ContinueOnFail] s')).
Proof.
  intros Hc H. unfold iteration, try_catch, catch_block, bind, modify.
  rewrite H, Hc. reflexivity.
Qed.

Lemma iteration_rethrows (i : nat) (s s' : Locals) (e : Error) :
  continueOnFail this = false ->
  try_block this resource operation i s = (inl e, s') ->
  iteration this resource operation i s = (inl e, log [ContinueOnFail] s').
Proof.
  intros Hc H. unfold iteration, try_catch, catch_block, bind, modify, throw.
  rewrite H, Hc. reflexivity.
Qed.

Lemma before_item_S (j : nat) :
  before_item this (S j) =
    match before_item this j with
    | Some s =>
        match iteration this resource operation j s with
        | (inr _, s') => Some s'
        | (inl _, _) => None
        end
    | None => None
    end.
Proof. reflexivity. Qed.

Lemma item_outcome_returns (k : nat) (r : value) :
  item_outcome this k = Some (inr r) ->
  exists s s', before_item this k = Some s
               /\ try_block this resource operation k s = (inr tt, s')
               /\ responseData s' = r.
Proof.
  unfold item_outcome, item_try.
  destruct (before_item this k) as [s|]; [|discriminate].
  destruct (try_block this resource operation k s) as [[e|[]] s'] eqn:Ht;
    intros [= <-]. eauto.
Qed.

Lemma item_outcome_throws (k : nat) (e : Error) :
  item_outcome this k = Some (inl e) ->
  exists s s', before_item this k = Some s
               /\ try_block this resource operation k s = (inl e, s').
Proof.
  unfold item_outcome, item_try.
  destruct (before_item this k) as [s|]; [|discriminate].
  destruct (try_block this resource operation k s) as [[e'|[]] s'] eqn:Ht;
    intros [= <-]. eauto.
Qed.

(** Three items, the second one failing, failures recorded: the output is
    what item 1 contributes, the error record, what item 3 contributes. *)
Lemma three_items_continue (r1 r3 : value) (e : Error) :
  length (getInputData this) = 3%nat ->
  continueOnFail this = true ->
  item_outcome this 0 = Some (inr r1) ->
  item_outcome this 1 = Some (inl e) ->
  item_outcome this 2 = Some (inr r3) ->
  fst (execute this) =
    inr [returnJsonArray
           (push_response r3
              (push_response r1 [] ++ [error_record (message e)]))].
Proof.
  intros Hlen Hc H0 H1 H2.
  apply item_outcome_returns in H0 as (s0 & s1 & B0 & T0 & R0).
  apply item_outcome_throws in H1 as (s1' & s2 & B1 & T1).
  apply item_outcome_returns in H2 as (s2' & s3 & B2 & T2 & R2).
  simpl in B0. injection B0 as <-.
  pose proof (iteration_returns _ _ _ T0) as I0.
  rewrite before_item_S in B1. simpl in B1. rewrite I0 in B1. injection B1 as <-.
  pose proof (iteration_continues _ _ _ _ Hc T1) as I1.
  rewrite before_item_S, before_item_S in B2. simpl in B2.
  rewrite I0, I1 in B2. injection B2 as <-.
  pose proof (iteration_returns _ _ _ T2) as I2.
  rewrite execute_unfold, Hlen.
  rewrite for_loop_step, I0, for_loop_step, I1, for_loop_step, I2. simpl.
  apply try_block_returns in T0 as (_ & _ & _ & _ & D0).
  apply try_block_throws in T1 as (_ & D1).
  apply try_block_returns in T2 as (_ & _ & _ & _ & D2).
  rewrite D2. simpl. rewrite D1, D0, R0, R2. reflexivity.
Qed.

End Run.

(** C8: when the selected pair is outside the dispatch table the run
    issues no request and produces no output element: every iteration
    leaves the locals as they were, the interaction consists of the two
    reads of [resource] and [operation], and the single batch returned is
    empty. *)
Theorem execute_table_miss (this : IExecuteFunctions) :
  ~ In (selected_resource this, selected_operation this) dispatch_table ->
  execute this = (inr [[]], started)
  /\ transport_calls (trace (snd (execute this))) = []
  /\ (forall i s, responseData s = JUndefined ->
        iteration this (selected_resource this) (selected_operation this) i s
          = (inr tt, s)).
Proof.
  intros Hmiss.
  assert (Hrun : execute this = (inr [[]], started)).
  { rewrite execute_unfold.
    rewrite (for_loop_table_miss this _ _ _ _ _ Hmiss) by reflexivity.
    reflexivity. }
  split; [exact Hrun|]. split.
  - rewrite Hrun. reflexivity.
  - intros i s Hundef. apply iteration_table_miss; assumption.
Qed.

Lemma execute_table_miss_witness :
  let this := sample_host 4 "space" "delete" true true [] no_ui no_fields [] in
  ~ In (selected_resource this, selected_operation this) dispatch_table
  /\ execute this = (inr [[]], started).
Proof.
  intros this.
  assert (Hmiss : ~ In (selected_resource this, selected_operation this)
                      dispatch_table).
  { vm_compute. intros H. repeat destruct H as [H|H]; try discriminate H. exact H. }
  split; [exact Hmiss|].
  exact (proj1 (execute_table_miss this Hmiss)).
Defined.

(** C1, as amended: three items, the second raising a transport error,
    failures recorded, and the first and third each answered with one
    defined value that is not an array. The output then has exactly three
    entries, in item order: the response of item 1, the record
    [{error: message}], the response of item 3. *)
Theorem execute_continue_three_items (this : IExecuteFunctions)
    (r1 r3 : value) (msg : string) :
  length (getInputData this) = 3%nat ->
  continueOnFail this = true ->
  item_outcome this 0 = Some (inr r1) ->
  item_outcome this 1 = Some (inl (TransportError msg)) ->
  item_outcome this 2 = Some (inr r3) ->
  is_single r1 = true ->
  is_single r3 = true ->
  fst (execute this) =
    inr [[ {| json := r1 |}; {| json := error_record msg |}; {| json := r3 |} ]].
Proof.
  intros Hlen Hc H0 H1 H2 S1 S3.
  rewrite (three_items_continue this r1 r3 _ Hlen Hc H0 H1 H2).
  destruct r1; try discriminate S1; destruct r3; try discriminate S3; reflexivity.
Qed.

Lemma execute_continue_three_items_witness :
  let this := host_gets true in
  (length (getInputData this) = 3%nat
   /\ continueOnFail this = true
   /\ item_outcome this 0 = Some (inr (named "spaces/A"))
   /\ item_outcome this 1
      = Some (inl (TransportError "The service is currently unavailable."))
   /\ item_outcome this 2 = Some (inr (named "spaces/C"))
   /\ is_single (named "spaces/A") = true
   /\ is_single (named "spaces/C") = true)
  /\ fst (execute this) =
       inr [[ {| json := named "spaces/A" |};
              {| json := error_record "The service is currently unavailable." |};
              {| json := named "spaces/C" |} ]].
Proof.
  intros this.
  split; [repeat split; reflexivity|].
  apply (execute_continue_three_items this); reflexivity.
Defined.

(** C1, as stated, fails when an item is answered with an array: the same
    three items with the second call failing, failures recorded, and list
    responses of two and of one element give four entries, the error record
    being the third. *)
Lemma execute_continue_three_items_arrays :
  let this := host_lists true in
  length (getInputData this) = 3%nat
  /\ continueOnFail this = true
  /\ item_outcome this 0
     = Some (inr (JArray [named "spaces/A"; named "spaces/B"]))
  /\ item_outcome this 1
     = Some (inl (TransportError "The service is currently unavailable."))
  /\ item_outcome this 2 = Some (inr (JArray [named "spaces/C"]))
  /\ fst (execute this) =
       inr [[ {| json := named "spaces/A" |};
              {| json := named "spaces/B" |};
              {| json := error_record "The service is currently unavailable." |};
              {| json := named "spaces/C" |} ]]
  /\ ~ (exists e1 e2 e3, fst (execute this) = inr [[e1; e2; e3]]).
Proof.
  intros this.
  assert (Hrun : fst (execute this) =
       inr [[ {| json := named "spaces/A" |};
              {| json := named "spaces/B" |};
              {| json := error_record "The service is currently unavailable." |};
              {| json := named "spaces/C" |} ]]) by reflexivity.
  repeat split; try reflexivity.
  intros (e1 & e2 & e3 & H). rewrite Hrun in H. discriminate H.
Qed.

(** C2: three items, the second raising a transport error, failures not
    recorded: the run throws that same error, with the locals the try
    block of item 2 left and nothing after them but the read of the
    continue-on-fail setting; the iteration of item 3 never begins and no
    output is returned. *)
Theorem execute_abort_three_items (this : IExecuteFunctions) (msg : string) :
  length (getInputData this) = 3%nat ->
  continueOnFail this = false ->
  item_outcome this 1 = Some (inl (TransportError msg)) ->
  exists s2,
    item_try this 1 = Some (inl (TransportError msg), s2)
    /\ execute this = (inl (TransportError msg), log [ContinueOnFail] s2)
    /\ before_item this 2 = None
    /\ item_outcome this 2 = None.
Proof.
  intros Hlen Hc H1.
  apply item_outcome_throws in H1 as (s1 & s2 & B1 & T1).
  exists s2.
  pose proof (iteration_rethrows this _ _ _ _ Hc T1) as I1.
  assert (B2 : before_item this 2 = None).
  { rewrite before_item_S, B1, I1. reflexivity. }
  assert (I0 : iteration this (selected_resource this) (selected_operation this)
                 0 started = (inr tt, s1)).
  { rewrite before_item_S in B1. simpl in B1.
    destruct (iteration this (selected_resource this) (selected_operation this)
                0 started) as [[e|[]] s] eqn:E; [discriminate|].
    injection B1 as <-. reflexivity. }
  repeat split.
  - unfold item_try. rewrite B1, T1. reflexivity.
  - rewrite execute_unfold, Hlen, for_loop_step, I0, for_loop_step, I1.
    reflexivity.
  - exact B2.
  - unfold item_outcome, item_try. rewrite B2. reflexivity.
Qed.

Lemma execute_abort_three_items_witness :
  let this := host_gets false in
  (length (getInputData this) = 3%nat
   /\ continueOnFail this = false
   /\ item_outcome this 1
      = Some (inl (TransportError "The service is currently unavailable.")))
  /\ fst (execute this)
     = inl (TransportError "The service is currently unavailable.")
  /\ item_outcome this 2 = None.
Proof.
  intros this.
  split; [repeat split; reflexivity|].
  destruct (execute_abort_three_items this
              "The service is currently unavailable."
              eq_refl eq_refl eq_refl) as (s2 & _ & Hrun & _ & Hnone).
  rewrite Hrun. split; [reflexivity | exact Hnone].
Defined.

(** ** Strings and the update mask *)

Lemma append_cons (x : Ascii.ascii) (a b : string) :
  String x a +:+ b = String x (a +:+ b).
Proof. reflexivity. Qed.

Lemma append_assoc (a b c : string) : (a +:+ b) +:+ c = a +:+ (b +:+ c).
Proof.
  induction a as [|x a IH]; [reflexivity|].
  rewrite !append_cons. f_equal. exact IH.
Qed.

Lemma append_empty_r (a : string) : a +:+ "" = a.
Proof.
  induction a as [|x a IH]; [reflexivity|].
  rewrite append_cons. f_equal. exact IH.
Qed.

Lemma slice_drops_comma (a : string) : slice_0_minus1 (a +:+ ",") = a.
Proof.
  unfold slice_0_minus1.
  assert (H : String.length (a +:+ ",") = S (String.length a)).
  { induction a as [|x a IH]; [reflexivity|].
    rewrite append_cons. simpl. f_equal. exact IH. }
  rewrite H. simpl. rewrite Nat.sub_0_r. clear H.
  induction a as [|x a IH]; [reflexivity|].
  rewrite append_cons. simpl. f_equal. exact IH.
Qed.

Lemma fold_left_accumulates (opts : list string) (acc : string) :
  fold_left (fun updateMask option => updateMask +:+ (option +:+ ",")) opts acc
  = acc +:+ fold_left (fun updateMask option => updateMask +:+ (option +:+ ","))
              opts "".
Proof.
  revert acc. induction opts as [|o opts IH]; intros acc; simpl.
  - now rewrite append_empty_r.
  - rewrite (IH (acc +:+ _)), (IH ("" +:+ _)). now rewrite append_assoc.
Qed.

Lemma fold_left_joined (o : string) (opts : list string) :
  fold_left (fun updateMask option => updateMask +:+ (option +:+ ","))
    (o :: opts) ""
  = comma_joined (o :: opts) +:+ ",".
Proof.
  revert o. induction opts as [|o' opts IH]; intros o.
  - reflexivity.
  - change (fold_left _ (o :: o' :: opts) "")
      with (fold_left (fun updateMask option => updateMask +:+ (option +:+ ","))
              (o' :: opts) ("" +:+ (o +:+ ","))).
    rewrite fold_left_accumulates, IH.
    unfold comma_joined. simpl. now rewrite !append_assoc.
Qed.

(** The loop-and-slice of the source against the join of the spec. *)
Lemma render_updateMask_joined (opts : list string) :
  render_updateMask opts = comma_joined opts.
Proof.
  destruct opts as [|o opts]; [reflexivity|].
  unfold render_updateMask. rewrite fold_left_joined. apply slice_drops_comma.
Qed.

(** ** Single items *)

Lemma transport_calls_app (t1 t2 : list Event) :
  transport_calls (t1 ++ t2) = transport_calls t1 ++ transport_calls t2.
Proof. apply List.filter_app. Qed.

Lemma unsigned_right_shift_0 (v : option number) :
  unsigned_right_shift v 0 = ToUint32 (ToNumber v).
Proof. unfold unsigned_right_shift. apply Z.shiftr_0_r. Qed.

Lemma ToUint32_range (x : number) : (0 <= ToUint32 x < 2 ^ 32)%Z.
Proof. unfold ToUint32. apply Z.mod_pos_bound. reflexivity. Qed.

Lemma lookup_pageSize (q : IDataObject) (size token : value) :
  (<["pageToken" := token]> (<["pageSize" := size]> q)) !! "pageSize" = Some size.
Proof. rewrite lookup_insert_ne by discriminate. apply lookup_insert_eq. Qed.

Lemma assign_text (t : string) :
  Object_assign ∅ (JObject (<["text" := JString t]> ∅)) = {[ "text" := JString t ]}.
Proof.
  unfold Object_assign, own_properties. rewrite insert_empty.
  apply (right_id ∅ (∪)).
Qed.

(** A string is copied by [Object.assign] one UTF-16 code unit at a time:
    a letter with an accent is one property, a code point above 0xFFFF is
    the two halves of its surrogate pair. *)
Lemma own_properties_code_units :
  own_properties (JString "é") = {[ "0" := JString "é" ]}
  /\ length (chars "a😀") = 3%nat
  /\ chars "ok" = ["o"; "k"].
Proof. repeat split; reflexivity. Qed.

Lemma assign_nothing : Object_assign ∅ (JObject ∅) = ∅.
Proof. unfold Object_assign, own_properties. apply (left_id ∅ (∪)). Qed.

(** Evaluate a [try] block as far as the known parameters allow. *)
Ltac run :=
  cbv beta iota zeta delta
    [try_block dispatch single_page create_message update_options
     bind ret throw gets modify try_catch
     getNodeParameter call_googleApiRequest call_googleApiRequestAllItems
     call_JSON_parse
     set_qs set_responseData set_returnData log
     qs responseData returnData trace fst snd];
  cbn [String.eqb Ascii.eqb Bool.eqb negb].

(** Take the transport's answer both ways. *)
Ltac answer this :=
  match goal with
  | |- context [googleApiRequest this ?t ?r] =>
      destruct (googleApiRequest this t r)
  end.

(** The calls of an interaction that grew by called events. *)
Ltac calls_grown :=
  rewrite <- ?app_assoc, transport_calls_app; simpl;
  rewrite ?app_nil_r; reflexivity.

(** C4: [message: create] in structured mode with an absent or empty text
    throws the invalid-input error "Message Text must be provided." after
    four parameter reads and not a single transport call; nothing is added
    to the output by the try block. *)
Theorem create_structured_without_text (this : IExecuteFunctions) (i : nat)
    (s : Locals) :
  getNodeParameter_boolean this "jsonParameterMessage" i = false ->
  (text (getNodeParameter_messageUi this "messageUi" i) = None
   \/ text (getNodeParameter_messageUi this "messageUi" i) = Some "") ->
  let after := try_block this "message" "create" i s in
  fst after = inl (NodeOperationError "Message Text must be provided.")
  /\ trace (snd after) = trace s ++
       [ GetNodeParameter "spaceName" i; GetNodeParameter "threadKey" i;
         GetNodeParameter "jsonParameterMessage" i;
         GetNodeParameter "messageUi" i ]
  /\ transport_calls (trace (snd after)) = transport_calls (trace s)
  /\ returnData (snd after) = returnData s.
Proof.
  intros Hflag Htext after.
  assert (Hafter : after =
    (inl (NodeOperationError "Message Text must be provided."),
     {| qs := <["threadKey" :=
                 JString (getNodeParameter_string this "threadKey" i)]> (qs s);
        responseData := responseData s; returnData := returnData s;
        trace := trace s ++
          [ GetNodeParameter "spaceName" i; GetNodeParameter "threadKey" i;
            GetNodeParameter "jsonParameterMessage" i;
            GetNodeParameter "messageUi" i ] |})).
  { subst after. run. rewrite Hflag. run.
    destruct Htext as [-> | ->]; run; rewrite <- !app_assoc; reflexivity. }
  rewrite Hafter. simpl. repeat split. calls_grown.
Qed.

Lemma create_structured_without_text_witness :
  let this := host_create {| text := Some ""; cards := None |} in
  (getNodeParameter_boolean this "jsonParameterMessage" 0 = false
   /\ text (getNodeParameter_messageUi this "messageUi" 0) = Some "")
  /\ fst (try_block this "message" "create" 0 started)
     = inl (NodeOperationError "Message Text must be provided.")
  /\ transport_calls (trace (snd (try_block this "message" "create" 0 started)))
     = [].
Proof.
  intros this. split; [split; reflexivity|].
  destruct (create_structured_without_text this 0 started eq_refl
              (or_intror eq_refl)) as (Hthrown & _ & Hcalls & _).
  split; [exact Hthrown | exact Hcalls].
Defined.

(** C5: [message: update] with an empty update mask throws the
    invalid-input error "Update Mask must not be empty." having read
    [spaceName], [messageName] and [updateMask] and nothing else: the
    locals are otherwise as before, neither the raw-JSON flag nor a payload
    parameter has been read, and no transport call has been made. *)
Theorem update_with_empty_mask (this : IExecuteFunctions) (i : nat) (s : Locals) :
  getNodeParameter_strings this "updateMask" i = [] ->
  let after := try_block this "message" "update" i s in
  let events := [ GetNodeParameter "spaceName" i;
                  GetNodeParameter "messageName" i;
                  GetNodeParameter "updateMask" i ] in
  fst after = inl (NodeOperationError "Update Mask must not be empty.")
  /\ snd after = log events s
  /\ reads "jsonParameterUpdateOptions" events = false
  /\ reads "updateOptionsJson" events = false
  /\ reads "textUi" events = false
  /\ transport_calls (trace (snd after)) = transport_calls (trace s).
Proof.
  intros Hmask after events.
  assert (Hafter : after =
    (inl (NodeOperationError "Update Mask must not be empty."), log events s)).
  { subst after events. run. rewrite Hmask. simpl.
    unfold log. simpl. rewrite <- !app_assoc. reflexivity. }
  rewrite Hafter. simpl. repeat split. calls_grown.
Qed.

Lemma update_with_empty_mask_witness :
  let this := host_update [] in
  getNodeParameter_strings this "updateMask" 0 = []
  /\ try_block this "message" "update" 0 started
     = (inl (NodeOperationError "Update Mask must not be empty."),
        log [ GetNodeParameter "spaceName" 0; GetNodeParameter "messageName" 0;
              GetNodeParameter "updateMask" 0 ] started).
Proof.
  intros this. split; [reflexivity|].
  destruct (update_with_empty_mask this 0 started eq_refl)
    as (Hthrown & Hlocals & _).
  rewrite (surjective_pairing (try_block this "message" "update" 0 started)).
  rewrite Hthrown, Hlocals. reflexivity.
Defined.

(** C10: [message: create] in structured mode with a non-empty text issues
    one request whose body is the single field [text] with that text,
    whatever the cards of the structured input are. *)
Theorem create_structured_body (this : IExecuteFunctions) (i : nat) (s : Locals)
    (t : string) :
  getNodeParameter_boolean this "jsonParameterMessage" i = false ->
  text (getNodeParameter_messageUi this "messageUi" i) = Some t ->
  t <> "" ->
  let after := try_block this "message" "create" i s in
  let sent : IDataObject := {[ "text" := JString t ]} in
  transport_calls (trace (snd after)) = transport_calls (trace s) ++
    [ GoogleApiRequest
        {| method := POST;
           endpoint := "/v1/spaces/" +:+ getNodeParameter_string this "spaceName" i;
           body := Some sent;
           query := Some (<["threadKey" :=
                      JString (getNodeParameter_string this "threadKey" i)]>
                      (qs s)) |} ]
  /\ sent !! "text" = Some (JString t)
  /\ (forall key, key <> "text" -> sent !! key = None)
  /\ sent !! "cards" = None.
Proof.
  intros Hflag Htext Hne after sent. subst after. split; [|split; [|split]].
  - run. rewrite Hflag. run. rewrite Htext.
    destruct (String.eqb_spec t ""); [contradiction|]. run.
    rewrite assign_text.
    answer this; run; calls_grown.
  - apply lookup_singleton_eq.
  - intros key Hkey. apply lookup_singleton_ne. congruence.
  - apply lookup_singleton_ne. discriminate.
Qed.

Lemma create_structured_body_witness :
  let this := host_create {| text := Some "hello";
                             cards := Some (JArray [named "card"]) |} in
  (getNodeParameter_boolean this "jsonParameterMessage" 0 = false
   /\ text (getNodeParameter_messageUi this "messageUi" 0) = Some "hello"
   /\ "hello" <> "")
  /\ transport_calls (trace (snd (try_block this "message" "create" 0 started)))
     = [ GoogleApiRequest
           {| method := POST; endpoint := "/v1/spaces/spaceName";
              body := Some {[ "text" := JString "hello" ]};
              query := Some {[ "threadKey" := JString "threadKey" ]} |} ].
Proof.
  intros this.
  assert (Hne : "hello" <> "") by discriminate.
  split; [split; [reflexivity | split; [reflexivity | exact Hne]]|].
  exact (proj1 (create_structured_body this 0 started "hello" eq_refl eq_refl Hne)).
Defined.

(** C6: in single-page mode both list operations send one request whose
    [pageSize] is the supplied page size through [ToUint32], a Number in
    the unsigned 32-bit range; a page size of -1 is sent as 4294967295. *)
Theorem single_page_sends_uint32 (this : IExecuteFunctions) (i : nat)
    (s : Locals) (x : number) :
  getNodeParameter_boolean this "returnAll" 0 = false ->
  pageSize (getNodeParameter_fields this "additionalFields" i) = Some x ->
  let sent := JNumber (number_of_Z (ToUint32 x)) in
  let query_sent :=
    <["pageToken" := prop JString
         (pageToken (getNodeParameter_fields this "additionalFields" i))]>
      (<["pageSize" := sent]> (qs s)) in
  transport_calls (trace (snd (try_block this "space" "getAll" i s)))
    = transport_calls (trace s) ++
        [ GoogleApiRequest {| method := GET; endpoint := "/v1/spaces";
                              body := None; query := Some query_sent |} ]
  /\ transport_calls (trace (snd (try_block this "member" "getAll" i s)))
    = transport_calls (trace s) ++
        [ GoogleApiRequest
            {| method := GET;
               endpoint := "/v1/spaces/"
                 +:+ getNodeParameter_string this "spaceName" i +:+ "/members";
               body := None; query := Some query_sent |} ]
  /\ query_sent !! "pageSize" = Some sent
  /\ (0 <= ToUint32 x < 2 ^ 32)%Z
  /\ (x = number_of_Z (-1) ->
       sent = JNumber (number_of_Z 4294967295)
       /\ sent <> JNumber (number_of_Z (-1))).
Proof.
  intros Hall Hsize sent query_sent.
  split; [|split; [|split; [|split]]].
  - run. rewrite Hall. run. rewrite Hsize, unsigned_right_shift_0. simpl ToNumber.
    answer this; run; calls_grown.
  - run. rewrite Hall. run. rewrite Hsize, unsigned_right_shift_0. simpl ToNumber.
    answer this; run; calls_grown.
  - apply lookup_pageSize.
  - apply ToUint32_range.
  - intros ->. subst sent. split; [reflexivity | discriminate].
Qed.

Lemma single_page_sends_uint32_witness :
  let this := host_page {| pageSize := Some (number_of_Z (-1));
                           pageToken := None |} in
  (getNodeParameter_boolean this "returnAll" 0 = false
   /\ pageSize (getNodeParameter_fields this "additionalFields" 0)
      = Some (number_of_Z (-1)))
  /\ transport_calls (trace (snd (try_block this "space" "getAll" 0 started)))
     = [ GoogleApiRequest
           {| method := GET; endpoint := "/v1/spaces"; body := None;
              query := Some (<["pageToken" := JUndefined]>
                              (<["pageSize" := JNumber (number_of_Z 4294967295)]>
                                 ∅)) |} ].
Proof.
  intros this. split; [split; reflexivity|].
  exact (proj1 (single_page_sends_uint32 this 0 started (number_of_Z (-1))
                  eq_refl eq_refl)).
Defined.

(** C9: in single-page mode with no page size supplied both list
    operations still send [pageSize], as the Number 0. *)
Theorem single_page_absent_pageSize (this : IExecuteFunctions) (i : nat)
    (s : Locals) :
  getNodeParameter_boolean this "returnAll" 0 = false ->
  pageSize (getNodeParameter_fields this "additionalFields" i) = None ->
  let query_sent :=
    <["pageToken" := prop JString
         (pageToken (getNodeParameter_fields this "additionalFields" i))]>
      (<["pageSize" := JNumber (number_of_Z 0)]> (qs s)) in
  transport_calls (trace (snd (try_block this "space" "getAll" i s)))
    = transport_calls (trace s) ++
        [ GoogleApiRequest {| method := GET; endpoint := "/v1/spaces";
                              body := None; query := Some query_sent |} ]
  /\ transport_calls (trace (snd (try_block this "member" "getAll" i s)))
    = transport_calls (trace s) ++
        [ GoogleApiRequest
            {| method := GET;
               endpoint := "/v1/spaces/"
                 +:+ getNodeParameter_string this "spaceName" i +:+ "/members";
               body := None; query := Some query_sent |} ]
  /\ query_sent !! "pageSize" = Some (JNumber (S754_zero false))
  /\ unsigned_right_shift None 0 = 0%Z.
Proof.
  intros Hall Hsize query_sent.
  split; [|split; [|split]].
  - run. rewrite Hall. run. rewrite Hsize.
    answer this; run; calls_grown.
  - run. rewrite Hall. run. rewrite Hsize.
    answer this; run; calls_grown.
  - apply lookup_pageSize.
  - reflexivity.
Qed.

Lemma single_page_absent_pageSize_witness :
  let this := host_page no_fields in
  (getNodeParameter_boolean this "returnAll" 0 = false
   /\ pageSize (getNodeParameter_fields this "additionalFields" 0) = None)
  /\ transport_calls (trace (snd (try_block this "space" "getAll" 0 started)))
     = [ GoogleApiRequest
           {| method := GET; endpoint := "/v1/spaces"; body := None;
              query := Some (<["pageToken" := JUndefined]>
                              (<["pageSize" := JNumber (S754_zero false)]> ∅)) |} ].
Proof.
  intros this. split; [split; reflexivity|].
  exact (proj1 (single_page_absent_pageSize this 0 started eq_refl eq_refl)).
Defined.





(** ** Outcomes of items and answers of the transport *)

Ltac run_in H :=
  cbv beta iota zeta delta
    [try_block dispatch single_page create_message update_options
     bind ret throw gets modify try_catch
     getNodeParameter call_googleApiRequest call_googleApiRequestAllItems
     call_JSON_parse
     set_qs set_responseData set_returnData log
     qs responseData returnData trace fst snd] in H;
  cbn [String.eqb Ascii.eqb Bool.eqb negb] in H.

(** Every way through a dispatch, one parameter or answer at a time. *)
Ltac all_paths this H :=
  repeat (match type of H with
          | context [getNodeParameter_boolean this ?n ?j] =>
              destruct (getNodeParameter_boolean this n j)
          | context [getNodeParameter_strings this ?n ?j] =>
              destruct (getNodeParameter_strings this n j)
          | context [text ?ui] => destruct (text ui)
          | context [is_undefined ?v] => destruct (is_undefined v)
          | context [JSON_parse this ?j] => destruct (JSON_parse this j)
          | context [includes ?l ?x] => destruct (includes l x)
          | context [String.eqb ?a ?b] => destruct (String.eqb a b)
          | context [googleApiRequest this ?t ?r] =>
              destruct (googleApiRequest this t r) eqn:?
          | context [googleApiRequestAllItems this ?t ?k ?r] =>
              destruct (googleApiRequestAllItems this t k r) eqn:?
          end; cbn [length Nat.eqb] in H; run_in H).

Ltac last_call :=
  eexists _, _;
  solve [ left; split; [reflexivity | eassumption]
        | right; eexists; split; [reflexivity | eassumption] ].

(** X10: a dispatch that returns, for a pair of the table, has just made a
    transport call, and [responseData] is what that call answered. *)
Lemma dispatch_stores_answer (this : IExecuteFunctions)
    (resource operation : string) (i : nat) (s s' : Locals) :
  In (resource, operation) dispatch_table ->
  dispatch this resource operation i s = (inr tt, s') ->
  answered this (trace s') (inr (responseData s')).
Proof.
  intros Hin H. simpl in Hin.
  repeat (destruct Hin as [Hin|Hin]; [injection Hin as <- <- | ]);
    [..|contradiction];
    run_in H; all_paths this H; try discriminate H.
  all: injection H as <-; simpl; last_call.
Qed.

(** X11: a dispatch throws a transport error only when the transport call
    it has just made raised it. *)
Lemma dispatch_transport_error (this : IExecuteFunctions)
    (resource operation : string) (i : nat) (s s' : Locals) (msg : string) :
  In (resource, operation) dispatch_table ->
  dispatch this resource operation i s = (inl (TransportError msg), s') ->
  answered this (trace s') (inl msg).
Proof.
  intros Hin H. simpl in Hin.
  repeat (destruct Hin as [Hin|Hin]; [injection Hin as <- <- | ]);
    [..|contradiction];
    run_in H; all_paths this H; try discriminate H.
  all: injection H as <- <-; simpl; last_call.
Qed.

Lemma dispatch_stores_answer_witness :
  let this := host_gets true in
  (In ("space", "get") dispatch_table
   /\ dispatch this "space" "get" 0 started
      = (inr tt, snd (dispatch this "space" "get" 0 started)))
  /\ answered this (trace (snd (dispatch this "space" "get" 0 started)))
       (inr (named "spaces/A")).
Proof.
  intros this.
  assert (Hin : In ("space", "get") dispatch_table) by (simpl; tauto).
  split; [split; [exact Hin | reflexivity]|].
  exact (dispatch_stores_answer this "space" "get" 0 started _ Hin eq_refl).
Defined.

Lemma dispatch_transport_error_witness :
  let this := host_down in
  (In ("space", "get") dispatch_table
   /\ dispatch this "space" "get" 0 started
      = (inl (TransportError "The service is currently unavailable."),
         snd (dispatch this "space" "get" 0 started)))
  /\ answered this (trace (snd (dispatch this "space" "get" 0 started)))
       (inl "The service is currently unavailable.").
Proof.
  intros this.
  assert (Hin : In ("space", "get") dispatch_table) by (simpl; tauto).
  split; [split; [exact Hin | reflexivity]|].
  exact (dispatch_transport_error this "space" "get" 0 started _ _ Hin eq_refl).
Defined.

(** ** Every way through one item *)

Lemma dispatch_table_dec (resource operation : string) :
  {In (resource, operation) dispatch_table}
  + {~ In (resource, operation) dispatch_table}.
Proof.
  apply in_dec. intros [a b] [c d].
  destruct (string_dec a c) as [->|Ha]; [|right; congruence].
  destruct (string_dec b d) as [->|Hb]; [left; reflexivity | right; congruence].
Qed.

Lemma try_block_events (this : IExecuteFunctions) (resource operation : string)
    (i : nat) (s : Locals) :
  exists events,
    trace (snd (try_block this resource operation i s)) = trace s ++ events
    /\ (length (transport_calls events) <= 1)%nat
    /\ forallb (read_of_item i) events = true.
Proof.
  destruct (dispatch_table_dec resource operation) as [Hin|Hmiss].
  - destruct (try_block this resource operation i s) as [r s'] eqn:H.
    simpl in Hin.
    repeat (destruct Hin as [Hin|Hin]; [injection Hin as <- <- | ]);
      [..|contradiction];
      run_in H; all_paths this H.
    all: injection H as <- <-; simpl.
    all: eexists; split; [rewrite <- ?app_assoc; reflexivity|].
    all: split; [simpl; lia|].
    all: cbn [forallb read_of_item app String.eqb Ascii.eqb Bool.eqb];
      rewrite ?Nat.eqb_refl, ?orb_true_r; reflexivity.
  - exists []. unfold try_block.
    rewrite (dispatch_table_miss this _ _ _ Hmiss). simpl.
    rewrite app_nil_r. split; [reflexivity|]. split; [simpl; lia | reflexivity].
Qed.

(** X7: whatever the operation, the try block of item [i] only adds to the
    interaction, makes at most one transport call, and reads parameters at
    index [i] only, but for [returnAll], which it reads at index 0. *)
Theorem try_block_interaction (this : IExecuteFunctions)
    (resource operation : string) (i : nat) (s : Locals) :
  exists events,
    trace (snd (try_block this resource operation i s)) = trace s ++ events
    /\ (length (transport_calls events) <= 1)%nat
    /\ forallb (read_of_item i) events = true.
Proof. apply try_block_events. Qed.

(** X8: a try block that throws has written neither [responseData] nor
    [returnData]: the failed item adds nothing to the output, and the
    response of the item before it is still the one stored. *)
Theorem try_block_throw_keeps (this : IExecuteFunctions)
    (resource operation : string) (i : nat) (s s' : Locals) (e : Error) :
  try_block this resource operation i s = (inl e, s') ->
  responseData s' = responseData s /\ returnData s' = returnData s.
Proof.
  intros H.
  destruct (dispatch_table_dec resource operation) as [Hin|Hmiss].
  - simpl in Hin.
    repeat (destruct Hin as [Hin|Hin]; [injection Hin as <- <- | ]);
      [..|contradiction];
      run_in H; all_paths this H; try discriminate H.
    all: injection H as <- <-; split; reflexivity.
  - unfold try_block in H. rewrite (dispatch_table_miss this _ _ _ Hmiss) in H.
    discriminate H.
Qed.

Lemma try_block_throw_keeps_witness :
  let this := host_create no_ui in
  try_block this "message" "create" 0 started
    = (inl (NodeOperationError "Message Text must be provided."),
       snd (try_block this "message" "create" 0 started))
  /\ responseData (snd (try_block this "message" "create" 0 started)) = JUndefined
  /\ returnData (snd (try_block this "message" "create" 0 started)) = [].
Proof.
  intros this. split; [reflexivity|].
  exact (try_block_throw_keeps this "message" "create" 0 started _ _ eq_refl).
Defined.

(** X9: only [message: create] and [message: update] reject their input;
    the try block of any other operation throws nothing but the error the
    transport call it has just made raised. *)
Theorem only_messages_reject_input (this : IExecuteFunctions)
    (resource operation : string) (i : nat) (s s' : Locals) (e : Error) :
  (resource, operation) <> ("message", "create") ->
  (resource, operation) <> ("message", "update") ->
  try_block this resource operation i s = (inl e, s') ->
  exists msg, e = TransportError msg /\ answered this (trace s') (inl msg).
Proof.
  intros Hc Hu H.
  destruct (dispatch_table_dec resource operation) as [Hin|Hmiss].
  - simpl in Hin.
    repeat (destruct Hin as [Hin|Hin]; [injection Hin as <- <- | ]);
      [..|contradiction]; try congruence;
      run_in H; all_paths this H; try discriminate H.
    all: injection H as <- <-; eexists; split; [reflexivity|]; simpl; last_call.
  - unfold try_block in H. rewrite (dispatch_table_miss this _ _ _ Hmiss) in H.
    discriminate H.
Qed.

Lemma only_messages_reject_input_witness :
  let this := host_down in
  let thrown := TransportError "The service is currently unavailable." in
  (("space", "get") <> ("message", "create")
   /\ ("space", "get") <> ("message", "update")
   /\ try_block this "space" "get" 0 started
      = (inl thrown, snd (try_block this "space" "get" 0 started)))
  /\ exists msg,
       thrown = TransportError msg
       /\ answered this (trace (snd (try_block this "space" "get" 0 started)))
            (inl msg).
Proof.
  intros this thrown.
  assert (Hc : ("space", "get") <> ("message", "create")) by discriminate.
  assert (Hu : ("space", "get") <> ("message", "update")) by discriminate.
  split; [split; [exact Hc | split; [exact Hu | reflexivity]]|].
  exact (only_messages_reject_input this "space" "get" 0 started _ _
           Hc Hu eq_refl).
Defined.

(** X12: the six operations that take only names: the try block reads the
    names at the item's index, issues one request with the method and path
    of the operation and neither body nor query, and leaves the query
    carrier alone; a response is stored and pushed, an error from the
    transport is thrown with [responseData] and [returnData] as before. *)
Theorem plain_request_outcome (this : IExecuteFunctions)
    (resource operation : string) (i : nat) (s : Locals)
    (names : list string) (m : Method) (path : string) :
  In (resource, operation, (names, m, path)) (plain_requests this i) ->
  let before := trace s ++ map (fun name => GetNodeParameter name i) names in
  let rq := {| method := m; endpoint := path; body := None; query := None |} in
  try_block this resource operation i s =
    match googleApiRequest this before rq with
    | inr v =>
        (inr tt,
         {| qs := qs s; responseData := v;
            returnData := push_response v (returnData s);
            trace := before ++ [GoogleApiRequest rq] |})
    | inl msg =>
        (inl (TransportError msg),
         {| qs := qs s; responseData := responseData s;
            returnData := returnData s;
            trace := before ++ [GoogleApiRequest rq] |})
    end.
Proof.
  intros Hin before rq. subst before rq. simpl in Hin.
  repeat (destruct Hin as [Hin|Hin]; [injection Hin as <- <- <- <- <- | ]);
    [..|contradiction];
    run; simpl map; rewrite <- ?app_assoc; simpl app;
    answer this; reflexivity.
Qed.

Lemma plain_request_outcome_witness :
  let this := sample_host 1 "attachment" "get" false false [] no_ui no_fields
                [inr (named "spaces/A/messages/1/attachments/2")] in
  let path := "/v1/spaces/spaceName/messages/messageName/attachments/attachmentName" in
  In ("attachment", "get",
      (["spaceName"; "messageName"; "attachmentName"], POST, path))
    (plain_requests this 0)
  /\ transport_calls (trace (snd (try_block this "attachment" "get" 0 started)))
     = [ GoogleApiRequest {| method := POST; endpoint := path;
                             body := None; query := None |} ].
Proof.
  intros this path.
  assert (Hin : In ("attachment", "get",
                    (["spaceName"; "messageName"; "attachmentName"], POST, path))
                  (plain_requests this 0)) by (simpl; tauto).
  split; [exact Hin|].
  rewrite (plain_request_outcome this "attachment" "get" 0 started _ _ _ Hin).
  reflexivity.
Defined.

(** X13: in fetch-all mode both list operations read [returnAll] at index
    0 whatever the item, never read the additional fields, hand the query
    carrier over as it is and leave it as it is, and make one paged call
    for [spaces] or [memberships]. *)
Theorem fetch_all_request (this : IExecuteFunctions) (i : nat) (s : Locals) :
  getNodeParameter_boolean this "returnAll" 0 = true ->
  let space_rq := {| method := GET; endpoint := "/v1/spaces";
                     body := None; query := Some (qs s) |} in
  let member_rq :=
    {| method := GET;
       endpoint := "/v1/spaces/" +:+ getNodeParameter_string this "spaceName" i
                     +:+ "/members";
       body := None; query := Some (qs s) |} in
  let after_space := snd (try_block this "space" "getAll" i s) in
  let after_member := snd (try_block this "member" "getAll" i s) in
  trace after_space = trace s ++
    [ GetNodeParameter "returnAll" 0;
      GoogleApiRequestAllItems "spaces" space_rq ]
  /\ qs after_space = qs s
  /\ trace after_member = trace s ++
    [ GetNodeParameter "spaceName" i; GetNodeParameter "returnAll" 0;
      GoogleApiRequestAllItems "memberships" member_rq ]
  /\ qs after_member = qs s.
Proof.
  intros Hall. cbv zeta.
  split; [|split; [|split]]; run; rewrite Hall; run;
    match goal with
    | |- context [googleApiRequestAllItems this ?t ?k ?r] =>
        destruct (googleApiRequestAllItems this t k r)
    end; run; rewrite <- ?app_assoc; reflexivity.
Qed.

Lemma fetch_all_request_witness :
  let this := host_lists true in
  getNodeParameter_boolean this "returnAll" 0 = true
  /\ trace (snd (try_block this "space" "getAll" 2 started)) = trace started ++
       [ GetNodeParameter "returnAll" 0;
         GoogleApiRequestAllItems "spaces"
           {| method := GET; endpoint := "/v1/spaces";
              body := None; query := Some ∅ |} ].
Proof.
  intros this. split; [reflexivity|].
  exact (proj1 (fetch_all_request this 2 started eq_refl)).
Defined.

(** X15: [message: update] in structured mode with a mask that does not
    name [text] never reads [textUi] and sends an empty body, with the
    rendered mask as its query. *)
Theorem update_structured_other_fields (this : IExecuteFunctions) (i : nat)
    (s : Locals) :
  let updateMaskOptions := getNodeParameter_strings this "updateMask" i in
  updateMaskOptions <> [] ->
  getNodeParameter_boolean this "jsonParameterUpdateOptions" i = false ->
  includes updateMaskOptions "text" = false ->
  trace (snd (try_block this "message" "update" i s)) = trace s ++
    [ GetNodeParameter "spaceName" i; GetNodeParameter "messageName" i;
      GetNodeParameter "updateMask" i;
      GetNodeParameter "jsonParameterUpdateOptions" i;
      GoogleApiRequest
        {| method := POST;
           endpoint := "/v1/spaces/"
             +:+ getNodeParameter_string this "spaceName" i
             +:+ "/messages/"
             +:+ getNodeParameter_string this "messageName" i;
           body := Some ∅;
           query := Some (<["updateMask" :=
                      JString (comma_joined updateMaskOptions)]> (qs s)) |} ].
Proof.
  intros opts Hne Hflag Hinc.
  rewrite <- (render_updateMask_joined opts).
  run. fold opts.
  destruct opts as [|o opts'] eqn:Eopts; [contradiction|].
  cbn [length Nat.eqb negb]. run. rewrite Hflag. run. rewrite Hinc. run.
  rewrite assign_nothing.
  answer this; run; rewrite <- ?app_assoc; reflexivity.
Qed.

Lemma update_structured_other_fields_witness :
  let this := host_update ["cards"] in
  (getNodeParameter_strings this "updateMask" 0 <> []
   /\ getNodeParameter_boolean this "jsonParameterUpdateOptions" 0 = false
   /\ includes (getNodeParameter_strings this "updateMask" 0) "text" = false)
  /\ transport_calls (trace (snd (try_block this "message" "update" 0 started)))
     = [ GoogleApiRequest
           {| method := POST;
              endpoint := "/v1/spaces/spaceName/messages/messageName";
              body := Some ∅;
              query := Some {[ "updateMask" := JString "cards" ]} |} ].
Proof.
  intros this.
  assert (Hne : getNodeParameter_strings this "updateMask" 0 <> [])
    by discriminate.
  split; [split; [exact Hne | split; reflexivity]|].
  rewrite (update_structured_other_fields this 0 started Hne eq_refl eq_refl).
  reflexivity.
Defined.

(** X16: [message: update] in structured mode with [text] in the mask. An
    empty text throws "Text input must be provided." without a transport
    call, the rendered mask staying in the query carrier; a non-empty text
    is sent as the single field of the body. *)
Theorem update_structured_text (this : IExecuteFunctions) (i : nat) (s : Locals) :
  let updateMaskOptions := getNodeParameter_strings this "updateMask" i in
  let textUi := getNodeParameter_string this "textUi" i in
  let after := try_block this "message" "update" i s in
  let query_sent :=
    <["updateMask" := JString (comma_joined updateMaskOptions)]> (qs s) in
  getNodeParameter_boolean this "jsonParameterUpdateOptions" i = false ->
  includes updateMaskOptions "text" = true ->
  (textUi = "" ->
     fst after = inl (NodeOperationError "Text input must be provided.")
     /\ transport_calls (trace (snd after)) = transport_calls (trace s)
     /\ qs (snd after) = query_sent)
  /\ (textUi <> "" ->
     transport_calls (trace (snd after)) = transport_calls (trace s) ++
       [ GoogleApiRequest
           {| method := POST;
              endpoint := "/v1/spaces/"
                +:+ getNodeParameter_string this "spaceName" i
                +:+ "/messages/"
                +:+ getNodeParameter_string this "messageName" i;
              body := Some {[ "text" := JString textUi ]};
              query := Some query_sent |} ]).
Proof.
  intros opts textUi after query_sent Hflag Hinc.
  subst after query_sent.
  rewrite <- (render_updateMask_joined opts).
  assert (Hne : opts <> []) by (intros E; rewrite E in Hinc; discriminate Hinc).
  split; intros Htext.
  - run. fold opts.
    destruct opts as [|o opts'] eqn:Eopts; [contradiction|].
    cbn [length Nat.eqb negb]. run. rewrite Hflag. run. rewrite Hinc. run.
    fold textUi. rewrite Htext. run.
    repeat split. calls_grown.
  - run. fold opts.
    destruct opts as [|o opts'] eqn:Eopts; [contradiction|].
    cbn [length Nat.eqb negb]. run. rewrite Hflag. run. rewrite Hinc. run.
    fold textUi. destruct (String.eqb_spec textUi ""); [contradiction|]. run.
    rewrite assign_text.
    answer this; run; calls_grown.
Qed.

Lemma update_structured_text_witness :
  let this := host_update ["text"; "cards"] in
  (getNodeParameter_boolean this "jsonParameterUpdateOptions" 0 = false
   /\ includes (getNodeParameter_strings this "updateMask" 0) "text" = true
   /\ getNodeParameter_string this "textUi" 0 <> "")
  /\ transport_calls (trace (snd (try_block this "message" "update" 0 started)))
     = [ GoogleApiRequest
           {| method := POST;
              endpoint := "/v1/spaces/spaceName/messages/messageName";
              body := Some {[ "text" := JString "textUi" ]};
              query := Some {[ "updateMask" := JString "text,cards" ]} |} ].
Proof.
  intros this.
  assert (Htext : getNodeParameter_string this "textUi" 0 <> "") by discriminate.
  split; [split; [reflexivity | split; [reflexivity | exact Htext]]|].
  exact (proj2 (update_structured_text this 0 started eq_refl eq_refl) Htext).
Defined.

(** ** Runs of any length *)

Section Loop.

Variable this : IExecuteFunctions.

#[local] Abbreviation resource := (selected_resource this).
#[local] Abbreviation operation := (selected_operation this).

Lemma before_item_None_le (j k : nat) :
  before_item this j = None -> (j <= k)%nat -> before_item this k = None.
Proof.
  intros Hj Hle. induction Hle as [|k Hle IH]; [exact Hj|].
  rewrite before_item_S, IH. reflexivity.
Qed.

Lemma before_item_step (j : nat) (s s' : Locals) :
  before_item this j = Some s ->
  iteration this resource operation j s = (inr tt, s') ->
  before_item this (S j) = Some s'.
Proof. intros Hj Hi. rewrite before_item_S, Hj, Hi. reflexivity. Qed.

Lemma before_item_stop (j : nat) (s s' : Locals) (e : Error) :
  before_item this j = Some s ->
  iteration this resource operation j s = (inl e, s') ->
  before_item this (S j) = None.
Proof. intros Hj Hi. rewrite before_item_S, Hj, Hi. reflexivity. Qed.

(** The loop, when the iteration after its last one can begin. *)
Lemma for_loop_reaches (n i : nat) (s s' : Locals) :
  before_item this i = Some s ->
  before_item this (i + n) = Some s' ->
  for_loop this resource operation n i s = (inr tt, s').
Proof.
  revert i s. induction n as [|n IH]; intros i s Hi Hn.
  - rewrite Nat.add_0_r, Hi in Hn. injection Hn as <-. reflexivity.
  - rewrite for_loop_step.
    destruct (iteration this resource operation i s) as [[e|[]] s1] eqn:Hit.
    + pose proof (before_item_stop _ _ _ _ Hi Hit) as Hstop.
      rewrite (before_item_None_le (S i) (i + S n) Hstop) in Hn by lia.
      discriminate Hn.
    + apply IH.
      * exact (before_item_step _ _ _ Hi Hit).
      * rewrite <- Hn. f_equal. lia.
Qed.

(** The loop, when one of its iterations throws. *)
Lemma for_loop_aborts (n i k : nat) (s sk sf : Locals) (e : Error) :
  before_item this i = Some s ->
  (i <= k < i + n)%nat ->
  before_item this k = Some sk ->
  iteration this resource operation k sk = (inl e, sf) ->
  for_loop this resource operation n i s = (inl e, sf).
Proof.
  revert i s. induction n as [|n IH]; intros i s Hi Hk Hsk Hit; [lia|].
  rewrite for_loop_step.
  destruct (Nat.eq_dec i k) as [->|Hne].
  - rewrite Hi in Hsk. injection Hsk as ->. rewrite Hit. reflexivity.
  - destruct (iteration this resource operation i s) as [[e'|[]] s1] eqn:Hi1.
    + pose proof (before_item_stop _ _ _ _ Hi Hi1) as Hstop.
      rewrite (before_item_None_le (S i) k Hstop) in Hsk by lia.
      discriminate Hsk.
    + apply IH; [exact (before_item_step _ _ _ Hi Hi1) | lia | exact Hsk | exact Hit].
Qed.

Lemma push_response_app (r : value) (rd : list value) :
  push_response r rd = rd ++ push_response r [].
Proof. destruct r; simpl; rewrite ?app_nil_r; reflexivity. Qed.

Lemma before_item_total :
  continueOnFail this = true -> forall k, exists s, before_item this k = Some s.
Proof.
  intros Hc k. induction k as [|k [s Hs]]; [eexists; reflexivity|].
  destruct (try_block this resource operation k s) as [[e|[]] s1] eqn:Ht.
  - eexists. eapply before_item_step; [exact Hs|].
    apply iteration_continues; eassumption.
  - eexists. eapply before_item_step; [exact Hs|].
    apply iteration_returns; eassumption.
Qed.

(** The output so far is what the items so far contributed, in order. *)
Lemma returnData_before_item (k : nat) (s : Locals) :
  before_item this k = Some s ->
  returnData s = flat_map (item_contribution this) (seq 0 k).
Proof.
  revert s. induction k as [|k IH]; intros s' Hk.
  - injection Hk as <-. reflexivity.
  - rewrite before_item_S in Hk.
    destruct (before_item this k) as [s|] eqn:Hs; [|discriminate].
    specialize (IH s eq_refl).
    rewrite seq_S, flat_map_app. simpl. rewrite app_nil_r, <- IH.
    unfold item_contribution, item_outcome, item_try. rewrite Hs.
    unfold iteration, try_catch, catch_block, bind, modify, throw in Hk.
    destruct (try_block this resource operation k s) as [[e|[]] s1] eqn:Ht.
    + apply try_block_throws in Ht as (_ & Hrd).
      destruct (continueOnFail this); [|discriminate].
      injection Hk as <-. simpl. rewrite Hrd. reflexivity.
    + apply try_block_returns in Ht as (_ & _ & _ & _ & Hrd).
      injection Hk as <-. rewrite Hrd. apply push_response_app.
Qed.

(** A property of the locals that every iteration keeps holds when the
    run ends, however it ends. *)
Lemma for_loop_invariant (I : Locals -> Prop) (N : nat) :
  (forall j s, (j < N)%nat -> I s ->
               I (snd (iteration this resource operation j s))) ->
  forall n i s, (i + n <= N)%nat -> I s ->
    I (snd (for_loop this resource operation n i s)).
Proof.
  intros Hstep. induction n as [|n IH]; intros i s Hle Hs; [exact Hs|].
  rewrite for_loop_step.
  pose proof (Hstep i s ltac:(lia) Hs) as Hi.
  destruct (iteration this resource operation i s) as [[e|[]] s1]; [exact Hi|].
  apply IH; [lia | exact Hi].
Qed.

Lemma execute_invariant (I : Locals -> Prop) :
  (forall j s, (j < length (getInputData this))%nat -> I s ->
               I (snd (iteration this resource operation j s))) ->
  I started -> I (snd (execute this)).
Proof.
  intros Hstep H0. rewrite execute_unfold.
  pose proof (for_loop_invariant I _ Hstep (length (getInputData this)) 0 started
                (le_n _) H0) as H.
  destruct (for_loop this resource operation _ 0 started) as [[e|[]] s]; exact H.
Qed.

Lemma iteration_trace (i : nat) (s : Locals) :
  exists events,
    trace (snd (iteration this resource operation i s)) = trace s ++ events
    /\ (length (transport_calls events) <= 1)%nat
    /\ forallb (read_of_item i) events = true.
Proof.
  destruct (try_block_events this resource operation i s)
    as (events & Htrace & Hcalls & Hreads).
  unfold iteration, try_catch, catch_block, bind, modify, throw.
  destruct (try_block this resource operation i s) as [[e|[]] s1]; simpl in *.
  - exists (events ++ [ContinueOnFail]).
    split; [destruct (continueOnFail this); simpl;
            rewrite Htrace, app_assoc; reflexivity|].
    split.
    + rewrite transport_calls_app, length_app. simpl. lia.
    + rewrite forallb_app, Hreads. reflexivity.
  - exists events. auto.
Qed.

Lemma for_loop_calls (n i : nat) (s : Locals) :
  (length (transport_calls (trace (snd (for_loop this resource operation n i s))))
   <= length (transport_calls (trace s)) + n)%nat.
Proof.
  revert i s. induction n as [|n IH]; intros i s; [simpl; lia|].
  rewrite for_loop_step.
  destruct (iteration_trace i s) as (events & Htrace & Hcalls & _).
  destruct (iteration this resource operation i s) as [[e|[]] s1]; simpl in *.
  - rewrite Htrace, transport_calls_app, length_app. lia.
  - specialize (IH (S i) s1).
    rewrite Htrace, transport_calls_app, length_app in IH. lia.
Qed.

End Loop.

(** X1: with failures recorded a run of any length returns, and its one
    batch is, item by item and in item order, the elements each response
    contributes or the error record of the item that failed. *)
Theorem execute_continue_output (this : IExecuteFunctions) :
  continueOnFail this = true ->
  fst (execute this) =
    inr [returnJsonArray
           (flat_map (item_contribution this)
              (seq 0 (length (getInputData this))))].
Proof.
  intros Hc.
  destruct (before_item_total this Hc (length (getInputData this))) as [s Hs].
  rewrite execute_unfold.
  rewrite (for_loop_reaches this _ 0 started s eq_refl Hs). simpl.
  rewrite (returnData_before_item this _ _ Hs). reflexivity.
Qed.

Lemma execute_continue_output_witness :
  let this := host_lists true in
  continueOnFail this = true
  /\ fst (execute this) =
       inr [[ {| json := named "spaces/A" |};
              {| json := named "spaces/B" |};
              {| json := error_record "The service is currently unavailable." |};
              {| json := named "spaces/C" |} ]].
Proof.
  intros this. split; [reflexivity|].
  exact (execute_continue_output this eq_refl).
Defined.

(** X2: with failures not recorded, the first item whose try block throws
    ends a run of any length: the run throws that error, its locals are
    those the try block left plus the read of the setting, and no later
    iteration begins. *)
Theorem execute_first_failure (this : IExecuteFunctions) (k : nat) (e : Error) :
  continueOnFail this = false ->
  (k < length (getInputData this))%nat ->
  item_outcome this k = Some (inl e) ->
  exists s2,
    item_try this k = Some (inl e, s2)
    /\ execute this = (inl e, log [ContinueOnFail] s2)
    /\ forall j, (k < j)%nat -> item_outcome this j = None.
Proof.
  intros Hc Hk Ho.
  apply item_outcome_throws in Ho as (s & s2 & Hs & Ht).
  exists s2.
  pose proof (iteration_rethrows this _ _ _ _ Hc Ht) as Hit.
  split; [unfold item_try; rewrite Hs, Ht; reflexivity|]. split.
  - rewrite execute_unfold.
    rewrite (for_loop_aborts this _ 0 k started s (log [ContinueOnFail] s2) e
               eq_refl); [reflexivity | lia | exact Hs | exact Hit].
  - intros j Hj. unfold item_outcome, item_try.
    rewrite (before_item_None_le this (S k) j); [reflexivity| |lia].
    exact (before_item_stop this _ _ _ _ Hs Hit).
Qed.

Lemma execute_first_failure_witness :
  let this := host_gets false in
  let thrown := TransportError "The service is currently unavailable." in
  (continueOnFail this = false
   /\ (1 < length (getInputData this))%nat
   /\ item_outcome this 1 = Some (inl thrown))
  /\ fst (execute this) = inl thrown.
Proof.
  intros this thrown.
  assert (Hk : (1 < length (getInputData this))%nat) by (simpl; lia).
  split; [split; [reflexivity | split; [exact Hk | reflexivity]]|].
  destruct (execute_first_failure this 1 thrown eq_refl Hk eq_refl)
    as (s2 & _ & Hrun & _).
  rewrite Hrun. reflexivity.
Defined.

(** X3: a run in which no try block throws returns, whatever the
    continue-on-fail setting, the contributions of its items in item
    order. *)
Theorem execute_no_failure (this : IExecuteFunctions) :
  (forall k e, (k < length (getInputData this))%nat ->
               item_outcome this k <> Some (inl e)) ->
  fst (execute this) =
    inr [returnJsonArray
           (flat_map (item_contribution this)
              (seq 0 (length (getInputData this))))].
Proof.
  intros Hok.
  assert (Hall : forall k, (k <= length (getInputData this))%nat ->
                           exists s, before_item this k = Some s).
  { induction k as [|k IH]; intros Hk; [eexists; reflexivity|].
    destruct IH as [s Hs]; [lia|].
    destruct (try_block this (selected_resource this) (selected_operation this)
                k s) as [[e|[]] s1] eqn:Ht.
    - exfalso. apply (Hok k e); [lia|].
      unfold item_outcome, item_try. rewrite Hs, Ht. reflexivity.
    - eexists. eapply before_item_step; [exact Hs|].
      apply iteration_returns; eassumption. }
  destruct (Hall _ (le_n _)) as [s Hs].
  rewrite execute_unfold.
  rewrite (for_loop_reaches this _ 0 started s eq_refl Hs). simpl.
  rewrite (returnData_before_item this _ _ Hs). reflexivity.
Qed.

Lemma execute_no_failure_witness :
  let this := host_two_gets in
  (forall k e, (k < length (getInputData this))%nat ->
               item_outcome this k <> Some (inl e))
  /\ fst (execute this) =
       inr [[ {| json := named "spaces/A" |}; {| json := named "spaces/B" |} ]].
Proof.
  intros this.
  assert (Hok : forall k e, (k < length (getInputData this))%nat ->
                            item_outcome this k <> Some (inl e)).
  { intros k e Hk. destruct k as [|[|k]]; [discriminate | discriminate|].
    simpl in Hk. lia. }
  split; [exact Hok|].
  exact (execute_no_failure this Hok).
Defined.

(** X4: a run makes at most as many transport calls as it has items,
    however it ends. *)
Theorem execute_calls_bound (this : IExecuteFunctions) :
  (length (transport_calls (trace (snd (execute this))))
   <= length (getInputData this))%nat.
Proof.
  rewrite execute_unfold.
  pose proof (for_loop_calls this (length (getInputData this)) 0 started) as H.
  destruct (for_loop this _ _ _ 0 started) as [[e|[]] s]; exact H.
Qed.

(** X5: every parameter a run reads is read at index 0 or at the index of
    one of its items. *)
Theorem execute_reads_known_items (this : IExecuteFunctions) :
  Forall (known_read (length (getInputData this))) (trace (snd (execute this))).
Proof.
  apply (execute_invariant this
           (fun s => Forall (known_read (length (getInputData this))) (trace s))).
  - intros j s Hj Hs.
    destruct (iteration_trace this j s) as (events & -> & _ & Hreads).
    apply Forall_app. split; [exact Hs|].
    apply List.Forall_forall. intros e He.
    rewrite forallb_forall in Hreads. specialize (Hreads e He).
    destruct e as [name k| | |]; simpl in *; auto.
    apply orb_prop in Hreads as [H|H].
    + apply Nat.eqb_eq in H. subst. right. exact Hj.
    + apply andb_prop in H as [_ H]. apply Nat.eqb_eq in H. left. exact H.
  - repeat constructor.
Qed.

(** X6: on an empty input the run still reads [resource] and [operation]
    at index 0, makes no call and returns one empty batch. *)
Theorem execute_empty_input (this : IExecuteFunctions) :
  getInputData this = [] ->
  execute this = (inr [[]], started).
Proof. intros H. rewrite execute_unfold, H. reflexivity. Qed.

Lemma execute_empty_input_witness :
  getInputData host_idle = [] /\ execute host_idle = (inr [[]], started).
Proof. split; [reflexivity|]. exact (execute_empty_input host_idle eq_refl). Defined.

(** X14: a run of a list operation in fetch-all mode never puts anything
    in the query carrier and never makes a single-page request: each of
    its calls is a paged GET without body and with an empty query. *)
Theorem fetch_all_run (this : IExecuteFunctions) :
  (selected_resource this = "space" \/ selected_resource this = "member") ->
  selected_operation this = "getAll" ->
  getNodeParameter_boolean this "returnAll" 0 = true ->
  qs (snd (execute this)) = ∅
  /\ Forall fetch_all_call (trace (snd (execute this))).
Proof.
  intros Hres Hop Hall.
  apply (execute_invariant this
           (fun s => qs s = ∅ /\ Forall fetch_all_call (trace s))).
  - intros j s _ [Hqs Htr].
    unfold iteration, try_catch, catch_block, bind, modify, throw.
    rewrite Hop.
    destruct Hres as [-> | ->]; run; rewrite Hall; run;
      match goal with
      | |- context [googleApiRequestAllItems this ?t ?k ?r] =>
          destruct (googleApiRequestAllItems this t k r)
      end; run; try destruct (continueOnFail this); run;
      (split; [exact Hqs|]);
      rewrite ?Forall_app; repeat split; try exact Htr;
      repeat constructor; simpl; try exact Hqs; auto.
    all: f_equal; exact Hqs.
  - split; [reflexivity | repeat constructor].
Qed.

Lemma fetch_all_run_witness :
  let this := host_lists true in
  ((selected_resource this = "space" \/ selected_resource this = "member")
   /\ selected_operation this = "getAll"
   /\ getNodeParameter_boolean this "returnAll" 0 = true)
  /\ qs (snd (execute this)) = ∅.
Proof.
  intros this.
  split; [split; [left; reflexivity | split; reflexivity]|].
  exact (proj1 (fetch_all_run this (or_introl eq_refl) eq_refl eq_refl)).
Defined.

(** X17: in a run of [message: create] the query carrier never holds more
    than the thread key: every request of the run is a POST whose query is
    the thread key of one item and nothing else, and no paged call is
    made. *)
Theorem create_run_query (this : IExecuteFunctions) :
  selected_resource this = "message" ->
  selected_operation this = "create" ->
  Forall (create_call this) (trace (snd (execute this))).
Proof.
  intros Hres Hop.
  refine (proj2 (execute_invariant this
     (fun s => (qs s = ∅ \/ exists j, qs s
                  = {[ "threadKey" :=
                         JString (getNodeParameter_string this "threadKey" j) ]})
               /\ Forall (create_call this) (trace s)) _ _));
    [|split; [left; reflexivity | repeat constructor]].
  intros j s _ [Hqs Htr].
  assert (Hkey : <["threadKey" :=
                     JString (getNodeParameter_string this "threadKey" j)]> (qs s)
                 = {[ "threadKey" :=
                        JString (getNodeParameter_string this "threadKey" j) ]}).
  { destruct Hqs as [-> | [k ->]];
      [apply insert_empty | apply insert_singleton_eq]. }
  destruct (iteration this (selected_resource this) (selected_operation this) j s)
    as [r s'] eqn:H.
  unfold iteration, try_catch, catch_block in H. rewrite Hres, Hop in H.
  run_in H. all_paths this H; try destruct (continueOnFail this); run_in H.
  all: injection H as <- <-; simpl.
  all: split; [right; exists j; exact Hkey|].
  all: rewrite ?Forall_app; repeat split; try exact Htr.
  all: repeat constructor; simpl; eauto.
  all: exists j; f_equal; exact Hkey.
Qed.

Lemma create_run_query_witness :
  let this := host_create {| text := Some "hello"; cards := None |} in
  (selected_resource this = "message" /\ selected_operation this = "create")
  /\ Forall (create_call this) (trace (snd (execute this))).
Proof.
  intros this. split; [split; reflexivity|].
  exact (create_run_query this eq_refl eq_refl).
Defined.

(** ** Integers through [>>> 0] *)

Section Integers.

Local Open Scope Z_scope.

Lemma iter_xO_value (p d : positive) :
  Z.pos (Pos.iter xO p d) = Z.pos p * 2 ^ Z.pos d.
Proof.
  induction d as [|d IH] using Pos.peano_ind.
  - simpl. lia.
  - rewrite Pos.iter_succ, Pos2Z.inj_xO, IH, Pos2Z.inj_succ, Z.pow_succ_r by lia.
    lia.
Qed.

Lemma iter_xO_digits (p d : positive) :
  Z.pos (digits2_pos (Pos.iter xO p d)) = Z.pos (digits2_pos p) + Z.pos d.
Proof.
  induction d as [|d IH] using Pos.peano_ind.
  - simpl. lia.
  - rewrite Pos.iter_succ. simpl digits2_pos.
    rewrite Pos2Z.inj_succ, IH, Pos2Z.inj_succ. lia.
Qed.

Lemma digits2_pos_lower (p : positive) :
  2 ^ (Z.pos (digits2_pos p) - 1) <= Z.pos p.
Proof.
  induction p as [p IH|p IH|]; simpl digits2_pos.
  - rewrite Pos2Z.inj_succ.
    replace (Z.succ (Z.pos (digits2_pos p)) - 1)
      with (Z.succ (Z.pos (digits2_pos p) - 1)) by lia.
    rewrite Z.pow_succ_r by lia. lia.
  - rewrite Pos2Z.inj_succ.
    replace (Z.succ (Z.pos (digits2_pos p)) - 1)
      with (Z.succ (Z.pos (digits2_pos p) - 1)) by lia.
    rewrite Z.pow_succ_r by lia. lia.
  - simpl. lia.
Qed.

Lemma digits2_pos_bound (p : positive) (n : Z) :
  0 <= n -> Z.pos p < 2 ^ n -> Z.pos (digits2_pos p) <= n.
Proof.
  intros Hn Hp.
  destruct (Z_le_gt_dec (Z.pos (digits2_pos p)) n) as [H|H]; [exact H|].
  exfalso.
  pose proof (digits2_pos_lower p) as Hlow.
  assert (2 ^ n <= 2 ^ (Z.pos (digits2_pos p) - 1))
    by (apply Z.pow_le_mono_r; lia).
  lia.
Qed.

Lemma fexp_small (e : Z) : -1021 <= e -> fexp prec emax e = e - 53.
Proof. intros H. unfold fexp, emin, prec, emax. lia. Qed.

(** A mantissa of 53 digits is kept as it is. *)
Lemma binary_round_aux_exact (sx : bool) (m : positive) (e : Z) :
  Z.pos (digits2_pos m) = 53 -> -1074 <= e <= 971 ->
  binary_round_aux prec emax sx (Z.pos m) e loc_Exact = S754_finite sx m e.
Proof.
  intros Hd He.
  assert (Hshr : shr_fexp prec emax (Z.pos m) e loc_Exact
                 = ({| shr_m := Z.pos m; shr_r := false; shr_s := false |}, e)).
  { unfold shr_fexp, Zdigits2. rewrite Hd, fexp_small by lia.
    replace (53 + e - 53 - e) with 0 by lia. reflexivity. }
  unfold binary_round_aux. rewrite Hshr.
  cbn [shr_m loc_of_shr_record round_nearest_even]. rewrite Hshr.
  cbn [shr_m]. unfold emax, prec.
  destruct (Z.leb_spec e (1024 - 53)); [reflexivity | lia].
Qed.

(** An integer below 2^53 is a binary64 value, its mantissa shifted left. *)
Lemma binary_round_integer (sx : bool) (p : positive) :
  Z.pos p < 2 ^ 53 ->
  exists m e, binary_round prec emax sx p 0 = S754_finite sx m e
              /\ -52 <= e <= 0
              /\ Z.pos m = Z.pos p * 2 ^ (- e).
Proof.
  intros Hp.
  pose proof (digits2_pos_bound p 53 ltac:(lia) Hp) as Hd.
  unfold binary_round. rewrite Z.add_0_r, fexp_small by lia.
  unfold shl_align. rewrite Z.sub_0_r.
  destruct (Z.pos (digits2_pos p) - 53) as [|q|q] eqn:Hq; [|lia|].
  - exists p, 0. rewrite binary_round_aux_exact by lia.
    split; [reflexivity|]. split; [lia|]. simpl. lia.
  - exists (Pos.iter xO p q), (Z.neg q).
    rewrite binary_round_aux_exact.
    + split; [reflexivity|]. split; [lia|].
      rewrite iter_xO_value. reflexivity.
    + rewrite iter_xO_digits. lia.
    + lia.
Qed.

Lemma truncate_number_of_Z (z : Z) :
  - 2 ^ 53 < z < 2 ^ 53 -> truncate (number_of_Z z) = z.
Proof.
  intros Hz. unfold number_of_Z, binary_normalize.
  destruct z as [|p|p].
  - reflexivity.
  - destruct (binary_round_integer false p ltac:(lia)) as (m & e & -> & He & Hm).
    unfold truncate.
    destruct (Z.leb_spec 0 e).
    + assert (e = 0) by lia. subst e. simpl in Hm. lia.
    + rewrite Hm. apply Z.div_mul. apply Z.pow_nonzero; lia.
  - destruct (binary_round_integer true p ltac:(lia)) as (m & e & -> & He & Hm).
    unfold truncate.
    destruct (Z.leb_spec 0 e).
    + assert (e = 0) by lia. subst e. simpl in Hm. lia.
    + rewrite Hm, Z.div_mul by (apply Z.pow_nonzero; lia). lia.
Qed.

(** X18: an integer page size of magnitude below 2^53 goes through the
    coercion as its residue modulo 2^32: unchanged when it is in the
    unsigned 32-bit range, 2^32 more when it is negative and not below
    -2^32. *)
Theorem ToUint32_integer (z : Z) :
  - 2 ^ 53 < z < 2 ^ 53 ->
  ToUint32 (number_of_Z z) = z mod 2 ^ 32
  /\ (0 <= z < 2 ^ 32 -> ToUint32 (number_of_Z z) = z)
  /\ (- 2 ^ 32 <= z < 0 -> ToUint32 (number_of_Z z) = z + 2 ^ 32).
Proof.
  intros Hz. unfold ToUint32. rewrite (truncate_number_of_Z z Hz).
  split; [reflexivity|]. split; intros H.
  - apply Z.mod_small. exact H.
  - symmetry. apply Z.mod_unique with (q := -1); lia.
Qed.

Lemma ToUint32_integer_witness :
  - 2 ^ 53 < 50 < 2 ^ 53 /\ ToUint32 (number_of_Z 50) = 50.
Proof.
  assert (Hz : - 2 ^ 53 < 50 < 2 ^ 53) by lia.
  split; [exact Hz|].
  apply (proj1 (proj2 (ToUint32_integer 50 Hz))). lia.
Defined.

(** X19: the coercion is idempotent: the Number it sends, coerced again,
    is the same unsigned 32-bit integer. *)
Theorem unsigned_right_shift_idempotent (v : option number) :
  unsigned_right_shift (Some (number_of_Z (unsigned_right_shift v 0))) 0
  = unsigned_right_shift v 0.
Proof.
  rewrite !unsigned_right_shift_0. simpl ToNumber.
  pose proof (ToUint32_range (ToNumber v)) as Hr.
  unfold ToUint32 at 1. rewrite truncate_number_of_Z by lia.
  apply Z.mod_small. exact Hr.
Qed.

End Integers.

End GoogleChat.
